(** * Coverage tracker and corpus scheduler of the fuzzer

    A shallow embedding of [package fuzzer]'s [Cover] (the coverage-signal
    tracker, in its two revisions), of the two revisions of
    [package corpus]'s [ProgramsList] (the corpus scheduler) and of the
    pure parts of tools/syz-declextract, followed by the properties of the
    specification stated over them and by further properties of the code.

    Conventions.
    - Go's [uint64] coverage events and [int64] priorities are [Z]; the
      [int64] arithmetic of the scheduler wraps around ([int64.wrap]).
    - A Go map used as a set with a tag per element is a [gmap Z Z].
    - The reader/writer locks are left out: every operation runs under its
      component's lock from start to end, so it is a function on states.
    - A method that mutates its receiver returns the new receiver. *)

From Stdlib Require Import ZArith List Lia Bool Ascii.
From Stdlib Require OrderedTypeEx.
From stdpp Require Import gmap list fin_maps strings sorting.

Local Open Scope Z_scope.

(** ** Machine integers *)

Module int64.

Definition min_int : Z := - 2 ^ 63.
Definition max_int : Z := 2 ^ 63 - 1.

(** Two's complement reduction of a mathematical integer to [int64]. *)
Definition wrap (z : Z) : Z := (z + 2 ^ 63) mod 2 ^ 64 - 2 ^ 63.

Definition add (a b : Z) : Z := wrap (a + b).
Definition mul (a b : Z) : Z := wrap (a * b).

Definition in_range (z : Z) : Prop := min_int <= z <= max_int.

End int64.

(** ** Results of operations that can panic *)

Inductive result (A : Type) : Type :=
| Panic : result A
| Return : A -> result A.

Arguments Panic {A}.
Arguments Return {A} _.

(** ** pkg/signal *)

Module signal.

(** Modelled from the spec: the type [signal.Signal] and its methods
    [Empty], [Merge], [DiffRaw] and [len] live in pkg/signal, which is
    not among the sources.  The specification describes it as a set-like
    value of coverage-event identifiers, each tagged with the priority
    of the observation that produced it. A nil signal and an empty one
    are the same value here. *)
Abbreviation Signal := (gmap Z Z).

(** Modelled from the spec: the size query of pkg/signal. *)
Definition Len (s : Signal) : Z := Z.of_nat (size s).

(** Modelled from the spec: the emptiness test of pkg/signal. *)
Definition Empty (s : Signal) : bool := Len s =? 0.

(** Modelled from the spec: merge of pkg/signal is the union; an event
    present on both sides keeps the higher priority, which makes the
    merge idempotent and commutative. *)
Definition Merge (s s1 : Signal) : Signal :=
  union_with (fun p p1 => Some (if p <? p1 then p1 else p)) s s1.

(** Modelled from the spec: diff against a raw trace of pkg/signal gives
    the events of the trace that are not already present, tagged with
    the priority of this observation; an event recorded with a lower
    priority counts as not present.  The signal diffed against is left
    as it is. *)
Definition DiffRaw (s : Signal) (raw : list Z) (prio : Z) : Signal :=
  foldl (fun res e =>
           match s !! e with
           | Some p => if prio <=? p then res else <[e := prio]> res
           | None => <[e := prio]> res
           end) ∅ raw.

(** [covered s prio e]: [s] already records [e] with priority [prio] or
    higher, so a diff against [s] skips [e]. *)
Definition covered (s : Signal) (prio e : Z) : bool :=
  match s !! e with
  | Some p => prio <=? p
  | None => false
  end.

(** [below s t]: every event of [s] is in [t], with at least its priority. *)
Definition below (s t : Signal) : Prop :=
  ∀ e p, s !! e = Some p → ∃ q, t !! e = Some q ∧ p <= q.

End signal.

(** ** package fuzzer: Cover *)

Module fuzzer.
Import signal.

(** [maxSignal]: max signal ever observed; [newSignal]: newly identified
    max signal. *)
Record Cover : Type := mkCover {
  maxSignal : Signal;
  newSignal : Signal
}.

Definition newCover : Cover := mkCover ∅ ∅.

Definition AddMaxSignal (cover : Cover) (sign : Signal) : Cover :=
  mkCover (Merge (maxSignal cover) sign) (newSignal cover).

Definition fs_lo : Z := 0xffffffff81f7db10.
Definition fs_hi : Z := 0xffffffff81fb3e69.

Definition in_fs (cover : Z) : bool := (fs_lo <=? cover) && (cover <=? fs_hi).

Fixpoint filterFsSignal (signal : list Z) : list Z :=
  match signal with
  | [] => []
  | cover :: rest =>
      if in_fs cover then cover :: filterFsSignal rest
      else filterFsSignal rest
  end.

Definition addRawMaxSignal (cover : Cover) (signal : list Z) (prio : Z)
  : Cover * Signal :=
  let fs_signal := filterFsSignal signal in
  let diff := DiffRaw (maxSignal cover) fs_signal prio in
  if Empty diff then (cover, diff)
  else (mkCover (Merge (maxSignal cover) diff) (Merge (newSignal cover) diff),
        diff).

Definition CopyMaxSignal (cover : Cover) : Signal := maxSignal cover.

Definition GrabSignalDelta (cover : Cover) : Cover * Signal :=
  let plus := newSignal cover in
  (mkCover (maxSignal cover) ∅, plus).

(** The operations a client can apply to a tracker. *)
Inductive op : Type :=
| OpAddMaxSignal (sign : Signal)
| OpAddRawMaxSignal (signal : list Z) (prio : Z)
| OpGrabSignalDelta.

Definition step (cover : Cover) (o : op) : Cover :=
  match o with
  | OpAddMaxSignal sign => AddMaxSignal cover sign
  | OpAddRawMaxSignal signal prio => fst (addRawMaxSignal cover signal prio)
  | OpGrabSignalDelta => fst (GrabSignalDelta cover)
  end.

Definition run (cover : Cover) (ops : list op) : Cover := foldl step cover ops.

(** A run of ingest calls: the final tracker and the deltas returned, in
    call order. *)
Fixpoint ingest_all (cover : Cover) (calls : list (list Z * Z))
  : Cover * list Signal :=
  match calls with
  | [] => (cover, [])
  | (signal, prio) :: rest =>
      let '(cover1, diff) := addRawMaxSignal cover signal prio in
      let '(cover2, diffs) := ingest_all cover1 rest in
      (cover2, diff :: diffs)
  end.

(** The union of a list of deltas. *)
Definition merge_all (diffs : list Signal) : Signal := foldl Merge ∅ diffs.

End fuzzer.

(** ** sort.Search of Go's standard library *)

Module gosort.

(** The loop [for i < j] of [sort.Search], with [i] and [j] as loop
    state; [fuel] bounds the number of iterations. *)
Fixpoint search_loop (fuel : nat) (f : nat -> bool) (i j : nat) : nat :=
  match fuel with
  | O => i
  | S fuel' =>
      if (i <? j)%nat then
        let h := ((i + j) / 2)%nat in
        if negb (f h) then search_loop fuel' f (h + 1)%nat j
        else search_loop fuel' f i h
      else i
  end.

(** [j - i] shrinks at every iteration, so [n] iterations are enough. *)
Definition Search (n : nat) (f : nat -> bool) : nat := search_loop n f 0%nat n.

End gosort.

(** ** math/rand of Go's standard library *)

Module gorand.

(** [Int63n(n)] and [Intn(n)] panic when [n <= 0] and otherwise return a
    number of [[0, n)].  The number the generator comes up with is an
    input of the model ([draw]); the theorems assume of it only that it
    lies in [[0, n)]. *)
Definition Int63n (draw n : Z) : result Z :=
  if n <=? 0 then Panic else Return draw.

Definition Intn (draw n : Z) : result Z :=
  if n <=? 0 then Panic else Return draw.

End gorand.

#[global] Instance result_bind : MBind result :=
  fun A B f r => match r with Panic => Panic | Return a => f a end.

(** ** package corpus: ProgramsList *)

Module corpus.
Import signal.

(** A [*prog.Prog] handed to the scheduler: an opaque reference, never
    inspected.  The references are not nil; nil is what [ChooseProgram]
    returns for "none" and is the [None] of its result. *)
Definition Prog : Type := positive.

Definition io_uring_lo : Z := 0xffffffff81ba06ed.
Definition io_uring_hi : Z := 0xffffffff81bd1636.

Definition in_io_uring (cover : Z) : bool :=
  (io_uring_lo <=? cover) && (cover <=? io_uring_hi).

(** The loop [for cover := range signal] of [saveProgram], over the keys
    of the map. *)
Definition io_uring_flag (signal : Signal) : bool :=
  map_fold (fun cover _ flag => if in_io_uring cover then true else flag)
           false signal.

(** [l[i]], which panics out of range. *)
Definition at_index (l : list Prog) (i : nat) : result (option Prog) :=
  match l !! i with
  | Some p => Return (Some p)
  | None => Panic
  end.

(** [accPrios] is non-decreasing. *)
Fixpoint nondecreasing (l : list Z) : bool :=
  match l with
  | x :: ((y :: _) as rest) => (x <=? y) && nondecreasing rest
  | _ => true
  end.

(** The cumulative-index invariant of the data model, for a main list of
    [n] programs: [accPrios] has one entry per program, does not decrease,
    and ends with [sumPrios] (which is 0 as long as the list is empty). *)
Definition cumulative_index (n : nat) (sumPrios : Z) (accPrios : list Z)
  : Prop :=
  length accPrios = n ∧
  nondecreasing accPrios = true ∧
  default 0 (last accPrios) = sumPrios.

(** [idx] is the first index of [acc] whose entry is [>= r]. *)
Definition first_at_least (acc : list Z) (r : Z) (idx : nat) : Prop :=
  (∃ x, acc !! idx = Some x ∧ r <= x) ∧
  ∀ k y, (k < idx)%nat → acc !! k = Some y → y < r.

(** *** First revision: the weight of a program is scaled *)

Module Rev1.

Record ProgramsList : Type := mkProgramsList {
  progs : list Prog;
  sumPrios : Z;
  accPrios : list Z
}.

(** The zero value of the struct. *)
Definition empty : ProgramsList := mkProgramsList [] 0 [].

(** [sort.Search] calls its predicate below [len(pl.accPrios)] only, so
    [pl.accPrios[i]] is in bounds there and the default of [nth] is never
    read. *)
Definition ChooseProgram (pl : ProgramsList) (draw : Z)
  : result (option Prog) :=
  if (length (progs pl) =? 0)%nat then Return None
  else
    randVal ← gorand.Int63n draw (int64.add (sumPrios pl) 1);
    let idx := gosort.Search (length (accPrios pl))
                 (fun i => randVal <=? nth i (accPrios pl) 0) in
    at_index (progs pl) idx.

Definition Programs (pl : ProgramsList) : list Prog := progs pl.

(** The local [prio] of [saveProgram] when it is added to [sumPrios]. *)
Definition prio_of (signal : Signal) : Z :=
  let prio := Len signal in
  let prio := if prio =? 0 then 1 else prio in
  if io_uring_flag signal then int64.mul prio 100000 else prio.

(** The call of [log.Logf] writes to the log only and is left out. *)
Definition saveProgram (pl : ProgramsList) (p : Prog) (signal : Signal)
  : ProgramsList :=
  let sum := int64.add (sumPrios pl) (prio_of signal) in
  mkProgramsList (progs pl ++ [p]) sum (accPrios pl ++ [sum]).

(** The fields of [pl] at the return of [replace].  In Go the two slices
    are assigned, not copied: from then on [pl] and [other] share their
    backing arrays, and an append to one can overwrite entries of the
    other.  What that does to later states is modelled in [shared]; this
    definition and [built] say nothing about it. *)
Definition replace (pl other : ProgramsList) : ProgramsList :=
  mkProgramsList (progs other) (sumPrios other) (accPrios other).

(** [prio_of] over the integers, without the reduction to [int64]. *)
Definition weight (signal : Signal) : Z :=
  Z.max 1 (Len signal) * (if io_uring_flag signal then 100000 else 1).

(** [built t pl]: [pl] comes from the zero value by calls of
    [saveProgram] and [replace], each replacement being handed over (no
    [saveProgram] on it after the call), and the weights behind its main
    list add up to [t] over the integers. *)
Inductive built : Z -> ProgramsList -> Prop :=
| built_empty : built 0 empty
| built_save t pl p signal :
    built t pl -> built (t + weight signal) (saveProgram pl p signal)
| built_replace t pl t' other :
    built t pl -> built t' other -> built t' (replace pl other).

(** A run of [saveProgram] calls, and the sum of their weights. *)
Definition admit_all (pl : ProgramsList) (calls : list (Prog * Signal))
  : ProgramsList :=
  foldl (fun pl call => saveProgram pl call.1 call.2) pl calls.

Definition total_weight (calls : list (Prog * Signal)) : Z :=
  foldr (fun call t => weight call.2 + t) 0 calls.

(** The draw is a number [r.Int63n] can return. *)
Definition draw_ok (pl : ProgramsList) (draw : Z) : Prop :=
  progs pl ≠ [] → 0 <= draw < int64.add (sumPrios pl) 1.

End Rev1.

(** *** Second revision: a protected subset next to the main list *)

Module Rev2.

Record ProgramsList : Type := mkProgramsList {
  progs : list Prog;
  ioUringProgs : list Prog;
  sumPrios : Z;
  accPrios : list Z
}.

Definition empty : ProgramsList := mkProgramsList [] [] 0 [].

(** What the generators return in one call of [ChooseProgram]:
    [r.Int63n(pl.sumPrios + 1)], [rand.Intn(100)] and
    [rand.Intn(len(pl.ioUringProgs))]. *)
Record draws : Type := mkDraws {
  d_randVal : Z;
  d_coin : Z;
  d_pick : Z
}.

Definition ChooseProgram (pl : ProgramsList) (d : draws)
  : result (option Prog) :=
  if (length (progs pl) =? 0)%nat then Return None
  else
    randVal ← gorand.Int63n (d_randVal d) (int64.add (sumPrios pl) 1);
    let idx := gosort.Search (length (accPrios pl))
                 (fun i => randVal <=? nth i (accPrios pl) 0) in
    coin ← gorand.Intn (d_coin d) 100;
    if coin <? 50 then
      if (length (ioUringProgs pl) =? 0)%nat then at_index (progs pl) idx
      else
        pick ← gorand.Intn (d_pick d) (Z.of_nat (length (ioUringProgs pl)));
        at_index (ioUringProgs pl) (Z.to_nat pick)
    else at_index (progs pl) idx.

Definition Programs (pl : ProgramsList) : list Prog := progs pl.

Definition prio_of (signal : Signal) : Z :=
  let prio := Len signal in
  if prio =? 0 then 1 else prio.

Definition saveProgram (pl : ProgramsList) (p : Prog) (signal : Signal)
  : ProgramsList :=
  let sum := int64.add (sumPrios pl) (prio_of signal) in
  mkProgramsList
    (progs pl ++ [p])
    (if io_uring_flag signal then ioUringProgs pl ++ [p]
     else ioUringProgs pl)
    sum
    (accPrios pl ++ [sum]).

(** As in the first revision: the fields of [pl] at the return of
    [replace], the slices being shared with [other] from then on (see
    [shared]); [ioUringProgs] is not assigned. *)
Definition replace (pl other : ProgramsList) : ProgramsList :=
  mkProgramsList (progs other) (ioUringProgs pl)
                 (sumPrios other) (accPrios other).

Definition weight (signal : Signal) : Z := Z.max 1 (Len signal).

(** As in the first revision, with every replacement handed over. *)
Inductive built : Z -> ProgramsList -> Prop :=
| built_empty : built 0 empty
| built_save t pl p signal :
    built t pl -> built (t + weight signal) (saveProgram pl p signal)
| built_replace t pl t' other :
    built t pl -> built t' other -> built t' (replace pl other).

Definition admit_all (pl : ProgramsList) (calls : list (Prog * Signal))
  : ProgramsList :=
  foldl (fun pl call => saveProgram pl call.1 call.2) pl calls.

Definition total_weight (calls : list (Prog * Signal)) : Z :=
  foldr (fun call t => weight call.2 + t) 0 calls.

(** The draws are numbers the generators can return: each lies in the
    range of the call that produces it. *)
Definition draws_ok (pl : ProgramsList) (d : draws) : Prop :=
  (progs pl ≠ [] → 0 <= d_randVal d < int64.add (sumPrios pl) 1) ∧
  0 <= d_coin d < 100 ∧
  (ioUringProgs pl ≠ [] →
   0 <= d_pick d < Z.of_nat (length (ioUringProgs pl))).


End Rev2.

End corpus.

(** ** package fuzzer: the revision of Cover with two target ranges *)

Module fuzzer2.
Import signal.

(** This revision differs from [fuzzer] in [filterFsSignal] alone; [Cover],
    [AddMaxSignal], [CopyMaxSignal] and [GrabSignalDelta] are the ones of
    [fuzzer]. *)
Definition in_fs (cover : Z) : bool :=
  ((0xffffffff831ba096 <=? cover) && (cover <=? 0xffffffff838eeede))
  || ((0xffffffff85b767b8 <=? cover) && (cover <=? 0xffffffff85b7e8d1)).

Fixpoint filterFsSignal (signal : list Z) : list Z :=
  match signal with
  | [] => []
  | cover :: rest =>
      if in_fs cover then cover :: filterFsSignal rest
      else filterFsSignal rest
  end.

Definition addRawMaxSignal (cover : fuzzer.Cover) (signal : list Z) (prio : Z)
  : fuzzer.Cover * Signal :=
  let fs_signal := filterFsSignal signal in
  let diff := DiffRaw (fuzzer.maxSignal cover) fs_signal prio in
  if Empty diff then (cover, diff)
  else (fuzzer.mkCover (Merge (fuzzer.maxSignal cover) diff)
                       (Merge (fuzzer.newSignal cover) diff),
        diff).

End fuzzer2.

(** ** Go slices over shared backing arrays *)

Module gomem.

(** A slice header: the backing array (none for the nil slice), the
    length and the capacity.  All slices here start at index 0 of their
    array. *)
Record slice : Type := mkSlice {
  arr : option nat;
  len : nat;
  cap : nat
}.

Definition nil : slice := mkSlice None 0 0.

(** The capacity the runtime gives the new array when [append] finds the
    slice full and adds one element: 1 for an empty slice, else twice the
    old capacity.  This is [growslice] for elements of 8 bytes (pointers,
    [int64]) up to a capacity of 256; larger slices grow by less. *)
Definition grow (cap : nat) : nat :=
  if (cap =? 0)%nat then 1%nat else (2 * cap)%nat.

(** The arrays allocated so far, by number; of each array the entries
    written so far (a slice over an array is never longer than that). *)
Definition array_of {A : Type} (h : list (list A)) (s : slice) : list A :=
  match arr s with
  | Some a => default [] (h !! a)
  | None => []
  end.

(** What a slice shows: [s[0:len(s)]]. *)
Definition contents {A : Type} (h : list (list A)) (s : slice) : list A :=
  take (len s) (array_of h s).

(** [c[i] = x] on the entries written so far, for [i] up to their
    number. *)
Definition write {A : Type} (i : nat) (x : A) (c : list A) : list A :=
  if (i <? length c)%nat then <[i := x]> c else c ++ [x].

(** [append(s, x)]: with room left the element is written into the array
    of [s], at [len(s)], whoever else looks at that array; without room a
    new array takes the elements of [s] and [x]. *)
Definition append {A : Type} (h : list (list A)) (s : slice) (x : A)
  : list (list A) * slice :=
  let fresh := (h ++ [contents h s ++ [x]],
                mkSlice (Some (length h)) (S (len s)) (grow (cap s))) in
  match arr s with
  | Some a =>
      if (len s <? cap s)%nat then
        (<[a := write (len s) x (array_of h s)]> h,
         mkSlice (Some a) (S (len s)) (cap s))
      else fresh
  | None => fresh
  end.

End gomem.

(** ** ProgramsList over shared backing arrays *)

Module shared.
Import signal corpus gomem.

(** The struct of the second revision, with its slices as slice headers. *)
Record ProgramsList : Type := mkProgramsList {
  progs : slice;
  ioUringProgs : slice;
  sumPrios : Z;
  accPrios : slice
}.

Definition empty : ProgramsList := mkProgramsList nil nil 0 nil.

(** The arrays behind the three slice fields, one store per field: the
    slices of a field come from appends to that field and from [replace],
    which assigns each field from the same field, so an array never serves
    two fields. *)
Record heap : Type := mkHeap {
  progArrays : list (list Prog);
  ioArrays : list (list Prog);
  accArrays : list (list Z)
}.

Definition empty_heap : heap := mkHeap [] [] [].

Definition saveProgram (h : heap) (pl : ProgramsList) (p : Prog)
  (signal : Signal) : heap * ProgramsList :=
  let sum := int64.add (sumPrios pl) (Rev2.prio_of signal) in
  let '(accs, acc) := append (accArrays h) (accPrios pl) sum in
  let '(ps, pr) := append (progArrays h) (progs pl) p in
  let '(ios, io) :=
    if io_uring_flag signal then append (ioArrays h) (ioUringProgs pl) p
    else (ioArrays h, ioUringProgs pl) in
  (mkHeap ps ios accs, mkProgramsList pr io sum acc).

(** The slice headers of [other] are assigned; no array is copied. *)
Definition replace (pl other : ProgramsList) : ProgramsList :=
  mkProgramsList (progs other) (ioUringProgs pl)
                 (sumPrios other) (accPrios other).

(** What [pl] shows at the moment: the state [ChooseProgram] reads. *)
Definition view (h : heap) (pl : ProgramsList) : Rev2.ProgramsList :=
  Rev2.mkProgramsList
    (contents (progArrays h) (progs pl))
    (contents (ioArrays h) (ioUringProgs pl))
    (sumPrios pl)
    (contents (accArrays h) (accPrios pl)).

Definition ChooseProgram (h : heap) (pl : ProgramsList) (d : Rev2.draws)
  : result (option Prog) :=
  Rev2.ChooseProgram (view h pl) d.

(** The slice lies within what was written of its array. *)
Definition slice_ok {A : Type} (arrays : list (list A)) (s : slice) : Prop :=
  match arr s with
  | Some a => ∃ c, arrays !! a = Some c ∧ (len s <= length c)%nat
  | None => len s = 0%nat ∧ cap s = 0%nat
  end.

Definition ok (h : heap) (pl : ProgramsList) : Prop :=
  slice_ok (progArrays h) (progs pl) ∧
  slice_ok (ioArrays h) (ioUringProgs pl) ∧
  slice_ok (accArrays h) (accPrios pl).

End shared.

(** ** The two revisions of ProgramsList side by side *)

(** The fields the second revision shares with the first. *)
Definition forget_protected (pl : corpus.Rev2.ProgramsList)
  : corpus.Rev1.ProgramsList :=
  corpus.Rev1.mkProgramsList (corpus.Rev2.progs pl) (corpus.Rev2.sumPrios pl)
                             (corpus.Rev2.accPrios pl).

(** [accPrios] grows strictly, with entries in [[1, sumPrios]]. *)
Definition increasing_to (sum : Z) (acc : list Z) : Prop :=
  (∀ i x, acc !! i = Some x → 1 <= x <= sum) ∧
  (∀ i j x y, acc !! i = Some x → acc !! j = Some y → (i < j)%nat → x < y).

(** ** strings and slices of Go's standard library *)

Module gostrings.

(** A Go string is a sequence of bytes; so is a [string] here. *)

(** ["\n"], the byte 10. *)
Definition nl : string := String "010"%char EmptyString.

(** [strings.Split(s, sep)[0]] for a separator of one byte: the part of
    [s] before the first [sep], all of [s] when it has none. *)
Fixpoint SplitHead (s : string) (sep : ascii) : string :=
  match s with
  | EmptyString => EmptyString
  | String c rest =>
      if Ascii.eqb c sep then EmptyString else String c (SplitHead rest sep)
  end.

(** [s[n:]], for [n <= len(s)]. *)
Fixpoint drop (n : nat) (s : string) : string :=
  match n, s with
  | O, _ => s
  | S n', String _ rest => drop n' rest
  | S _, EmptyString => EmptyString
  end.

(** [strings.HasPrefix(s, prefix)]. *)
Definition HasPrefix (s prefix : string) : bool := String.prefix prefix s.

(** [strings.TrimPrefix(s, prefix)]. *)
Definition TrimPrefix (s prefix : string) : string :=
  if HasPrefix s prefix then drop (String.length prefix) s else s.

(** [strings.Replace(s, old, new, 1)]: the leftmost [old] in [s] gives way
    to [new]; [s] comes back as it is when [old] is not in it.  An empty
    [old] matches at the start of [s]. *)
Fixpoint Replace1 (s old new : string) : string :=
  if String.prefix old s then new +:+ drop (String.length old) s
  else
    match s with
    | EmptyString => EmptyString
    | String c rest => String c (Replace1 rest old new)
    end.

(** [strings.Join(elems, sep)]. *)
Definition Join (elems : list string) (sep : string) : string :=
  String.concat sep elems.

(** [a <= b] on Go strings: the order of the bytes, the first difference
    deciding. *)
Definition le (a b : string) : Prop := String.leb a b = true.

Definition lt (a b : string) : Prop := String.ltb a b = true.

#[global] Instance le_dec : RelDecision le :=
  fun a b => decide (String.leb a b = true).

End gostrings.

Module goslices.

(** [slices.Sort] on strings.  A sorted permutation of a list of strings
    is unique, so the algorithm does not show in the result; merge sort
    stands for it here. *)
Definition Sort (l : list string) : list string := merge_sort gostrings.le l.

(** The loop of [slices.CompactFunc]: [s[k]] is kept when it is not [eq]
    to [s[k-1]], its neighbour in the input. *)
Fixpoint compact_loop (eq : string -> string -> bool) (prev : string)
  (l : list string) : list string :=
  match l with
  | [] => []
  | x :: rest =>
      if eq x prev then compact_loop eq x rest
      else x :: compact_loop eq x rest
  end.

Definition CompactFunc (l : list string) (eq : string -> string -> bool)
  : list string :=
  match l with
  | [] => []
  | x :: rest => x :: compact_loop eq x rest
  end.

(** [slices.Compact]: [CompactFunc] with [==]. *)
Definition Compact (l : list string) : list string := CompactFunc l String.eqb.

End goslices.

(** ** tools/syz-declextract *)

Module declextract.
Import gostrings.

Definition isProhibited (syscall : string) : bool :=
  if String.eqb syscall "reboot" then true
  else if String.eqb syscall "utimesat" then true
  else false.

(** A missing key and a nil slice both give no names, and no lines. *)
Definition renameSyscall (desc : string) (rename : gmap string (list string))
  : list string :=
  let toReplace := SplitHead desc "$"%char in
  match rename !! toReplace with
  | None => []
  | Some names =>
      foldl (fun renamed name =>
               if isProhibited name then renamed
               else renamed ++ [Replace1 desc toReplace name])
            [] names
  end.

(** The comparison [writeOutput] hands to [slices.CompactFunc]. *)
Definition same_call (a b : string) : bool :=
  String.eqb (SplitHead a "$"%char) (SplitHead b "$"%char).

(** No byte of the call name of [line] (the part before the first ["$"])
    is below ["$"] in the order of bytes: no control byte, space, ["!"],
    the double quote or ["#"]. *)
Fixpoint no_byte_below (c : ascii) (s : string) : bool :=
  match s with
  | EmptyString => true
  | String a rest => negb (Ascii.ltb a c) && no_byte_below c rest
  end.

Definition plain_call (line : string) : bool :=
  no_byte_below "$" (SplitHead line "$").

(** The lines [writeOutput] keeps, in the order it writes them. *)
Definition output_lines (allOut : list string) : list string :=
  goslices.CompactFunc (goslices.Sort allOut) same_call.

(** [writeOutput]: what it writes to [outFile].  The write itself, and
    [tool.Fail] when it fails, are left out. *)
Definition writeOutput (allOut : list string) : string :=
  ("# Code generated by syz-declextract. DO NOT EDIT." +:+ nl)
  +:+ Join (output_lines allOut) nl
  +:+ (nl +:+ "_ = __NR_mmap2" +:+ nl).

(** The body of the scanner loop of [readSyscallNames], from the fields of
    one line of a .tbl file on ([strings.Fields(s.Text())]). *)
Definition scan_fields (rename : gmap string (list string))
  (fields : list string) : gmap string (list string) :=
  match fields with
  | f0 :: _ :: f2 :: f3 :: _ =>
      if String.eqb f0 "#" || HasPrefix f2 "unused" || String.eqb f3 "-"
         || HasPrefix f3 "compat" || String.eqb f3 "sys_ni_syscall"
      then rename
      else
        let key := TrimPrefix f3 "sys_" in
        <[key := default [] (rename !! key) ++ [f2]]> rename
  | _ => rename
  end.

(** The last loop of [readSyscallNames]: every list sorted and compacted. *)
Definition normalize (rename : gmap string (list string))
  : gmap string (list string) :=
  (fun names => goslices.Compact (goslices.Sort names)) <$> rename.

(** [readSyscallNames] from the field lists of the lines the scanners
    return, in the order they are read; walking the directories and
    reading the files are left out. *)
Definition readSyscallNames (lines : list (list string))
  : gmap string (list string) :=
  normalize (foldl scan_fields ∅ lines).

End declextract.

(** * Properties *)

(** ** Signals *)

Section signal_facts.
Import signal.
Implicit Types (s t d res : gmap Z Z) (e p prio : Z) (raw : list Z).

Lemma Empty_true s : Empty s = true ↔ s = ∅.
Proof.
  unfold Empty, Len. rewrite Z.eqb_eq, <- map_size_empty_iff. lia.
Qed.

Lemma Empty_false s : Empty s = false ↔ ∃ e, is_Some (s !! e).
Proof.
  rewrite <- not_true_iff_false, Empty_true. split.
  - intros Hne. destruct (map_choose s Hne) as (e & p & He). by exists e, p.
  - intros (e & p & He) ->. by rewrite lookup_empty in He.
Qed.

Lemma lookup_Merge s t e :
  Merge s t !! e =
  match s !! e, t !! e with
  | Some p, Some p1 => Some (if p <? p1 then p1 else p)
  | Some p, None => Some p
  | None, o => o
  end.
Proof.
  unfold Merge. rewrite lookup_union_with.
  by destruct (s !! e), (t !! e).
Qed.

Lemma Merge_empty_r s : Merge s ∅ = s.
Proof.
  apply map_eq. intros e. rewrite lookup_Merge, lookup_empty.
  by destruct (s !! e).
Qed.

Lemma Merge_empty_l s : Merge ∅ s = s.
Proof.
  apply map_eq. intros e. by rewrite lookup_Merge, lookup_empty.
Qed.

Lemma Merge_is_Some s t e :
  is_Some (Merge s t !! e) ↔ is_Some (s !! e) ∨ is_Some (t !! e).
Proof.
  rewrite lookup_Merge.
  destruct (s !! e), (t !! e); rewrite <- ?not_eq_None_Some; intuition congruence.
Qed.

Lemma below_refl s : below s s.
Proof. intros e p He. exists p. split; [done | lia]. Qed.

Lemma below_empty t : below ∅ t.
Proof. intros e p He. by rewrite lookup_empty in He. Qed.

Lemma below_Merge_l s t d : below s t → below s (Merge t d).
Proof.
  intros Hst e p He. destruct (Hst e p He) as (q & Hq & Hpq).
  rewrite lookup_Merge, Hq. destruct (d !! e) as [p1|].
  - eexists. split; [done |]. destruct (q <? p1) eqn:E; lia.
  - by exists q.
Qed.

Lemma below_Merge s t d : below s t → below (Merge s d) (Merge t d).
Proof.
  intros Hst e p. rewrite !lookup_Merge.
  destruct (s !! e) as [ps|] eqn:Hs.
  - destruct (Hst e ps Hs) as (q & -> & Hpq).
    destruct (d !! e) as [p1|]; intros [= <-]; eexists; (split; [done |]).
    + destruct (ps <? p1) eqn:E1, (q <? p1) eqn:E2; lia.
    + lia.
  - intros Hd. rewrite Hd. destruct (t !! e) as [q|].
    + eexists. split; [done |]. destruct (q <? p) eqn:E; lia.
    + exists p. split; [done | lia].
Qed.

Lemma below_dom s t : below s t → dom s ⊆ dom t.
Proof.
  intros Hst e. rewrite !elem_of_dom. intros (p & He).
  destruct (Hst e p He) as (q & Hq & _). by exists q.
Qed.

(** The loop of [DiffRaw], started from any partial result. *)
Lemma lookup_DiffRaw_loop s prio raw : ∀ res e,
  foldl (fun res e =>
           match s !! e with
           | Some p => if prio <=? p then res else <[e := prio]> res
           | None => <[e := prio]> res
           end) res raw !! e =
  if decide (e ∈ raw ∧ covered s prio e = false) then Some prio else res !! e.
Proof.
  induction raw as [|x raw IH]; intros res e; cbn [foldl].
  - rewrite decide_False; [done |]. intros [H _]. by apply elem_of_nil in H.
  - rewrite IH. clear IH.
    destruct (decide (e ∈ raw ∧ covered s prio e = false)) as [[Hin Hc]|Hn].
    + rewrite decide_True; [done |]. split; [by right | done].
    + destruct (decide (e = x)) as [->|Hne].
      * unfold covered in *. destruct (s !! x) as [p|] eqn:Hs.
        -- destruct (prio <=? p) eqn:Hp.
           ++ rewrite decide_False; [done |]. intros [_ ?]; done.
           ++ rewrite lookup_insert_eq, decide_True; [done |].
              split; [by left | done].
        -- rewrite lookup_insert_eq, decide_True; [done |].
           split; [by left | done].
      * assert (Hx : (if decide (e ∈ x :: raw ∧ covered s prio e = false)
                      then Some prio else res !! e) = res !! e).
        { rewrite decide_False; [done |]. intros [Hin Hc].
          apply elem_of_cons in Hin as [?|Hin]; [done |]. by apply Hn. }
        rewrite Hx. destruct (s !! x) as [p|]; [destruct (prio <=? p)|];
          by rewrite ?lookup_insert_ne.
Qed.

Lemma lookup_DiffRaw s raw prio e :
  DiffRaw s raw prio !! e =
  if decide (e ∈ raw ∧ covered s prio e = false) then Some prio else None.
Proof. unfold DiffRaw. by rewrite lookup_DiffRaw_loop, lookup_empty. Qed.

Lemma DiffRaw_is_Some s raw prio e :
  is_Some (DiffRaw s raw prio !! e) ↔ e ∈ raw ∧ covered s prio e = false.
Proof.
  rewrite lookup_DiffRaw. case_decide as H.
  - split; [done | by eexists].
  - split; [by intros [? ?] | done].
Qed.

Lemma DiffRaw_empty s raw prio :
  DiffRaw s raw prio = ∅ ↔ ∀ e, e ∈ raw → covered s prio e = true.
Proof.
  split.
  - intros Hd e He. destruct (covered s prio e) eqn:Hc; [done |].
    assert (is_Some (DiffRaw s raw prio !! e)) as [p Hp]
      by by apply DiffRaw_is_Some.
    by rewrite Hd, lookup_empty in Hp.
  - intros Hall. apply map_eq. intros e.
    rewrite lookup_DiffRaw, lookup_empty, decide_False; [done |].
    intros [Hin Hc]. rewrite (Hall e Hin) in Hc. done.
Qed.

End signal_facts.

(** ** The coverage tracker *)

Section cover_facts.
Import signal fuzzer.
Implicit Types (cover : Cover) (signal raw : list Z) (e prio : Z).

Lemma elem_of_filterFsSignal signal e :
  e ∈ filterFsSignal signal ↔ e ∈ signal ∧ in_fs e = true.
Proof.
  induction signal as [|x signal IH]; simpl.
  - split; [intros H | intros [H _]]; by apply elem_of_nil in H.
  - destruct (in_fs x) eqn:Hx; rewrite ?elem_of_cons, IH.
    + split; [intros [->|[? ?]] | intros [[->|?] ?]]; auto.
    + split; [intros [? ?] | intros [[->|?] ?]]; auto. congruence.
Qed.

Lemma filterFsSignal_outside signal :
  Forall (fun e => in_fs e = false) signal → filterFsSignal signal = [].
Proof. induction 1 as [|x l Hx _ IH]; simpl; [done |]. by rewrite Hx. Qed.

(** Both sets take in the delta, whether it is empty or not. *)
Lemma addRawMaxSignal_state cover signal prio :
  let diff := DiffRaw (maxSignal cover) (filterFsSignal signal) prio in
  addRawMaxSignal cover signal prio =
  (mkCover (Merge (maxSignal cover) diff) (Merge (newSignal cover) diff), diff).
Proof.
  intros diff. unfold addRawMaxSignal. fold diff.
  destruct (Empty diff) eqn:He; [|done].
  apply Empty_true in He. rewrite He, !Merge_empty_r. by destruct cover.
Qed.

Lemma addRawMaxSignal_delta cover signal prio e :
  is_Some ((addRawMaxSignal cover signal prio).2 !! e) ↔
  e ∈ signal ∧ in_fs e = true ∧ covered (maxSignal cover) prio e = false.
Proof.
  rewrite addRawMaxSignal_state. simpl.
  rewrite DiffRaw_is_Some, elem_of_filterFsSignal. tauto.
Qed.

(** After an ingest the known set covers the whole filtered trace. *)
Lemma addRawMaxSignal_covers cover signal prio e :
  e ∈ filterFsSignal signal →
  covered (maxSignal (addRawMaxSignal cover signal prio).1) prio e = true.
Proof.
  intros He. rewrite addRawMaxSignal_state. simpl.
  unfold covered at 1. rewrite lookup_Merge, lookup_DiffRaw.
  destruct (covered (maxSignal cover) prio e) eqn:Hc.
  - rewrite decide_False by (intros [_ ?]; done).
    unfold covered in Hc. by destruct (maxSignal cover !! e).
  - rewrite decide_True by done.
    destruct (maxSignal cover !! e) as [p|]; [|apply Z.leb_refl].
    destruct (p <? prio) eqn:E; [apply Z.leb_refl | lia].
Qed.

Lemma newSignal_ingest_all calls : ∀ cover,
  newSignal (ingest_all cover calls).1 =
  foldl Merge (newSignal cover) (ingest_all cover calls).2.
Proof.
  induction calls as [|[signal prio] calls IH]; intros cover; simpl; [done |].
  rewrite (addRawMaxSignal_state cover signal prio). cbv zeta.
  destruct (ingest_all _ calls) as [cover2 diffs] eqn:Hrest. simpl.
  specialize (IH (mkCover
    (Merge (maxSignal cover)
       (DiffRaw (maxSignal cover) (filterFsSignal signal) prio))
    (Merge (newSignal cover)
       (DiffRaw (maxSignal cover) (filterFsSignal signal) prio)))).
  rewrite Hrest in IH. exact IH.
Qed.

Lemma foldl_Merge_is_Some (diffs : list (gmap Z Z)) : ∀ (s : gmap Z Z) e,
  is_Some (foldl Merge s diffs !! e) ↔
  is_Some (s !! e) ∨ ∃ d, d ∈ diffs ∧ is_Some (d !! e).
Proof.
  induction diffs as [|d diffs IH]; intros s e; simpl.
  - split; [by left | intros [H|(d & Hd & _)]; [done |]].
    by apply elem_of_nil in Hd.
  - rewrite IH, Merge_is_Some. split.
    + intros [[H|H]|(d' & Hd' & H)]; [by left | |].
      * right. exists d. split; [by left | done].
      * right. exists d'. split; [by right | done].
    + intros [H|(d' & Hd' & H)]; [by left; left |].
      apply elem_of_cons in Hd' as [->|Hd']; [by left; right |].
      right. by exists d'.
Qed.

Lemma step_below cover (o : op) :
  below (newSignal cover) (maxSignal cover) →
  below (newSignal (step cover o)) (maxSignal (step cover o)).
Proof.
  intros Hinv. destruct o as [sign|signal prio|]; simpl.
  - by apply below_Merge_l.
  - rewrite addRawMaxSignal_state. simpl. by apply below_Merge.
  - apply below_empty.
Qed.

Lemma run_below ops : ∀ cover,
  below (newSignal cover) (maxSignal cover) →
  below (newSignal (run cover ops)) (maxSignal (run cover ops)).
Proof.
  induction ops as [|o ops IH]; intros cover Hinv; simpl; [done |].
  apply IH. by apply step_below.
Qed.

End cover_facts.

Section cover_claims.
Import signal fuzzer.

(** Claim C3.  [addRawMaxSignal] keeps to the target range
    [[fs_lo, fs_hi]]: every event of the delta it returns is an event of
    the trace inside the range; outside the range the known and the
    pending set are left as they were; the events of the trace outside
    the range have no influence on the result, and a trace made only of
    such events leaves the tracker as it was and returns the empty
    signal.  The operation is a total function: it has no error result. *)
Theorem addRawMaxSignal_scope (cover : Cover) (signal : list Z) (prio : Z) :
  let r := addRawMaxSignal cover signal prio in
  (∀ e, is_Some (r.2 !! e) → e ∈ signal ∧ in_fs e = true) ∧
  (∀ e, in_fs e = false →
        maxSignal r.1 !! e = maxSignal cover !! e ∧
        newSignal r.1 !! e = newSignal cover !! e) ∧
  (∀ signal', filterFsSignal signal' = filterFsSignal signal →
        addRawMaxSignal cover signal' prio = r) ∧
  (Forall (fun e => in_fs e = false) signal → r = (cover, ∅)).
Proof.
  intros r. split; [|split; [|split]].
  - intros e He. apply addRawMaxSignal_delta in He. tauto.
  - intros e He. subst r. rewrite addRawMaxSignal_state. simpl.
    assert (Hd : DiffRaw (maxSignal cover) (filterFsSignal signal) prio !! e
                 = None).
    { rewrite lookup_DiffRaw, decide_False; [done |].
      intros [Hin _]. apply elem_of_filterFsSignal in Hin as [_ Hin].
      congruence. }
    rewrite !lookup_Merge, Hd.
    by destruct (maxSignal cover !! e), (newSignal cover !! e).
  - intros signal' Heq. subst r. unfold addRawMaxSignal. by rewrite Heq.
  - intros Hout. subst r. unfold addRawMaxSignal.
    by rewrite (filterFsSignal_outside _ Hout).
Qed.

Lemma addRawMaxSignal_scope_witness :
  let r := addRawMaxSignal newCover [0; fs_lo; 2 ^ 64 - 1] 3 in
  (fs_lo ∈ [0; fs_lo; 2 ^ 64 - 1] ∧ in_fs fs_lo = true) ∧
  (maxSignal r.1 !! 0 = None ∧ newSignal r.1 !! 0 = None) ∧
  addRawMaxSignal newCover [fs_lo] 3 = r ∧
  addRawMaxSignal newCover [0; 2 ^ 64 - 1] 3 = (newCover, ∅).
Proof.
  intros r.
  pose proof (addRawMaxSignal_scope newCover [0; fs_lo; 2 ^ 64 - 1] 3)
    as (H1 & H2 & H3 & _).
  pose proof (addRawMaxSignal_scope newCover [0; 2 ^ 64 - 1] 3)
    as (_ & _ & _ & H4).
  split; [|split; [|split]].
  - apply H1. vm_compute. eauto.
  - apply (H2 0). reflexivity.
  - apply H3. reflexivity.
  - apply H4. repeat constructor.
Defined.

(** Claim C4 fails as stated: a trace whose events all lie outside the
    target range gives an empty delta already on the first call. *)
Lemma addRawMaxSignal_first_delta_empty :
  let r1 := addRawMaxSignal newCover [4096] 1 in
  ¬ (Empty r1.2 = false ∧ Empty (addRawMaxSignal r1.1 [4096] 1).2 = true).
Proof. vm_compute. intros [H _]. discriminate H. Qed.

(** Claim C4, amended.  Of two calls in a row with the same trace and
    priority the second returns the empty delta and changes nothing; the
    first returns a non-empty delta exactly when the trace has an event
    inside the target range that the known set does not record with that
    priority or a higher one. *)
Theorem addRawMaxSignal_twice (cover : Cover) (signal : list Z) (prio : Z) :
  let r1 := addRawMaxSignal cover signal prio in
  let r2 := addRawMaxSignal r1.1 signal prio in
  Empty r2.2 = true ∧ r2.1 = r1.1 ∧
  (Empty r1.2 = false ↔
   ∃ e, e ∈ signal ∧ in_fs e = true ∧
        covered (maxSignal cover) prio e = false).
Proof.
  intros r1 r2.
  assert (Hd : DiffRaw (maxSignal r1.1) (filterFsSignal signal) prio = ∅).
  { apply DiffRaw_empty. intros e He. by apply addRawMaxSignal_covers. }
  assert (Hr2 : r2 = (r1.1, ∅)).
  { subst r2. unfold addRawMaxSignal at 1. by rewrite Hd. }
  rewrite Hr2. simpl. repeat split.
  - intros (e & He)%Empty_false. exists e. by apply addRawMaxSignal_delta.
  - intros (e & He). apply Empty_false. exists e.
    by apply addRawMaxSignal_delta.
Qed.

(** Claim C5.  Start right after a drain, or from the new tracker.  After
    any run of [addRawMaxSignal] calls, [GrabSignalDelta] returns the
    union of the deltas those calls returned: an event is drained exactly
    when one of the deltas has it.  The drain leaves the pending set
    empty, so a second drain right after it returns nothing. *)
Theorem GrabSignalDelta_partition (cover0 : Cover) (calls : list (list Z * Z)) :
  ∀ start, start = (GrabSignalDelta cover0).1 ∨ start = newCover →
  let r := ingest_all start calls in
  let g := GrabSignalDelta r.1 in
  g.2 = merge_all r.2 ∧
  (∀ e, is_Some (g.2 !! e) ↔ ∃ d, d ∈ r.2 ∧ is_Some (d !! e)) ∧
  newSignal g.1 = ∅ ∧
  (GrabSignalDelta g.1).2 = ∅.
Proof.
  intros start Hstart r g.
  assert (Hnew : newSignal start = ∅) by (by destruct Hstart as [-> | ->]).
  assert (Hg : g.2 = merge_all r.2).
  { subst g r. simpl. rewrite newSignal_ingest_all, Hnew. done. }
  repeat split; try done.
  - rewrite Hg. unfold merge_all. intros H.
    apply foldl_Merge_is_Some in H as [H|H]; [|done].
    rewrite lookup_empty in H. by destruct H.
  - rewrite Hg. unfold merge_all. intros H.
    apply foldl_Merge_is_Some. by right.
Qed.

Lemma GrabSignalDelta_partition_witness :
  let start := (GrabSignalDelta (AddMaxSignal newCover {[ fs_lo := 1 ]})).1 in
  let r := ingest_all start [([fs_lo; fs_hi], 1); ([fs_lo; 7], 2)] in
  (GrabSignalDelta r.1).2 = {[ fs_lo := 2; fs_hi := 1 ]} ∧
  newSignal (GrabSignalDelta r.1).1 = ∅.
Proof.
  intros start r.
  pose proof (GrabSignalDelta_partition
                (AddMaxSignal newCover {[ fs_lo := 1 ]})
                [([fs_lo; fs_hi], 1); ([fs_lo; 7], 2)] start (or_introl eq_refl))
    as (H1 & _ & H3 & _).
  split; [|exact H3].
  fold r in H1. rewrite H1. apply map_eq. intros e.
  vm_compute. reflexivity.
Defined.

(** Claim C7.  In every tracker state reached from the new tracker by
    [AddMaxSignal], [addRawMaxSignal] and [GrabSignalDelta], in any order,
    the pending set is a subset of the known set; moreover the known set
    records each pending event with at least its pending priority. *)
Theorem newSignal_subset_maxSignal (ops : list op) :
  let cover := run newCover ops in
  dom (newSignal cover) ⊆ dom (maxSignal cover) ∧
  below (newSignal cover) (maxSignal cover).
Proof.
  intros cover.
  assert (H : below (newSignal cover) (maxSignal cover)).
  { apply run_below. apply below_empty. }
  split; [by apply below_dom | done].
Qed.

End cover_claims.

(** ** Machine arithmetic and binary search *)

Section search_facts.

Lemma wrap_in_range z : int64.in_range z → int64.wrap z = z.
Proof.
  unfold int64.in_range, int64.min_int, int64.max_int, int64.wrap.
  intros Hz. rewrite Z.mod_small; lia.
Qed.

Lemma add_exact a b : int64.in_range (a + b) → int64.add a b = a + b.
Proof. apply wrap_in_range. Qed.

Lemma mul_exact a b : int64.in_range (a * b) → int64.mul a b = a * b.
Proof. apply wrap_in_range. Qed.

Lemma half_between (i j : nat) :
  (i < j)%nat → (i <= (i + j) / 2 < j)%nat.
Proof.
  intros Hij.
  pose proof (Nat.div_mod_eq (i + j) 2) as Hdm.
  pose proof (Nat.mod_upper_bound (i + j) 2 ltac:(lia)) as Hm.
  lia.
Qed.

(** The predicate is probed below [n] only. *)
Lemma search_loop_ext (f g : nat → bool) (n : nat) :
  (∀ k, (k < n)%nat → f k = g k) →
  ∀ fuel i j, (j <= n)%nat →
  gosort.search_loop fuel f i j = gosort.search_loop fuel g i j.
Proof.
  intros Hfg. induction fuel as [|fuel IH]; intros i j Hj;
    cbn [gosort.search_loop]; [done |].
  destruct (i <? j)%nat eqn:Hij; [|done].
  apply Nat.ltb_lt in Hij. pose proof (half_between i j Hij) as Hh.
  rewrite <- (Hfg ((i + j) / 2)%nat) by lia.
  destruct (f ((i + j) / 2)%nat); cbn [negb]; apply IH; lia.
Qed.

Lemma Search_ext (f g : nat → bool) (n : nat) :
  (∀ k, (k < n)%nat → f k = g k) → gosort.Search n f = gosort.Search n g.
Proof. intros Hfg. unfold gosort.Search. by apply (search_loop_ext f g n). Qed.

(** [j - i] iterations bring the loop to its exit: more fuel changes
    nothing, for any predicate. *)
Lemma search_loop_fuel (f : nat → bool) :
  ∀ fuel fuel' i j, (j - i <= fuel)%nat → (fuel <= fuel')%nat →
  gosort.search_loop fuel' f i j = gosort.search_loop fuel f i j.
Proof.
  induction fuel as [|fuel IH]; intros fuel' i j Hfuel Hle.
  - destruct fuel' as [|fuel']; cbn [gosort.search_loop]; [done |].
    destruct (i <? j)%nat eqn:Hij; [|done]. apply Nat.ltb_lt in Hij. lia.
  - destruct fuel' as [|fuel']; [lia |]. cbn [gosort.search_loop].
    destruct (i <? j)%nat eqn:Hij; [|done].
    apply Nat.ltb_lt in Hij. pose proof (half_between i j Hij) as Hh.
    destruct (f ((i + j) / 2)%nat); cbn [negb]; apply IH; lia.
Qed.

(** The loop invariant of [sort.Search] for a predicate that is monotone
    below [n]: false left of [i], true from [j] on.  With [j - i]
    iterations the loop has come to its end. *)
Lemma search_loop_first (f : nat → bool) (n : nat) :
  (∀ a b, (a <= b < n)%nat → f a = true → f b = true) →
  ∀ fuel i j,
    (i <= j <= n)%nat → (j - i <= fuel)%nat →
    (∀ k, (k < i)%nat → f k = false) →
    (∀ k, (j <= k < n)%nat → f k = true) →
    let r := gosort.search_loop fuel f i j in
    (i <= r <= j)%nat ∧
    (∀ k, (k < r)%nat → f k = false) ∧
    (∀ k, (r <= k < n)%nat → f k = true).
Proof.
  intros Hmono. induction fuel as [|fuel IH]; intros i j Hij Hfuel Hlo Hhi.
  - cbn [gosort.search_loop]. assert (i = j) as -> by lia. auto with lia.
  - cbn [gosort.search_loop]. destruct (i <? j)%nat eqn:Hlt.
    + apply Nat.ltb_lt in Hlt. pose proof (half_between i j Hlt) as Hh.
      set (h := ((i + j) / 2)%nat) in *.
      destruct (f h) eqn:Hfh; cbn [negb].
      * destruct (IH i h) as (Hr & Hfalse & Htrue); try lia; auto.
        { intros k Hk. apply (Hmono h k); [lia | done]. }
        split; [lia | auto].
      * destruct (IH (h + 1)%nat j) as (Hr & Hfalse & Htrue); try lia; auto.
        { intros k Hk. destruct (f k) eqn:Hfk; [|done].
          rewrite <- Hfh. symmetry. apply (Hmono k h); [lia | done]. }
        split; [lia | auto].
    + apply Nat.ltb_ge in Hlt. assert (i = j) as -> by lia. auto with lia.
Qed.

Lemma Search_first (f : nat → bool) (n : nat) :
  (∀ a b, (a <= b < n)%nat → f a = true → f b = true) →
  let r := gosort.Search n f in
  (r <= n)%nat ∧
  (∀ k, (k < r)%nat → f k = false) ∧
  (∀ k, (r <= k < n)%nat → f k = true).
Proof.
  intros Hmono. unfold gosort.Search.
  destruct (search_loop_first f n Hmono n 0%nat n) as (Hr & Hfalse & Htrue);
    try lia; auto with lia.
Qed.

End search_facts.

(** ** The cumulative index *)

Section index_facts.
Import corpus.
Implicit Types (acc : list Z) (n : nat).

Lemma nondecreasing_cons x acc :
  nondecreasing (x :: acc) = true ↔
  nondecreasing acc = true ∧ ∀ y, head acc = Some y → x <= y.
Proof.
  destruct acc as [|y acc]; simpl.
  - split; [intros _; split; [done | intros ? [=]] | done].
  - rewrite andb_true_iff, Z.leb_le. split.
    + intros [Hxy Hs]. split; [done |]. by intros ? [= <-].
    + intros [Hs Hxy]. split; [by apply Hxy | done].
Qed.

Lemma nondecreasing_lookup acc :
  nondecreasing acc = true →
  ∀ i j x y, acc !! i = Some x → acc !! j = Some y → (i <= j)%nat → x <= y.
Proof.
  induction acc as [|a acc IH]; intros Hs i j x y Hi Hj Hij; [done |].
  apply nondecreasing_cons in Hs as [Hs Hhd].
  destruct j as [|j].
  - assert (i = 0%nat) as -> by lia. simpl in *. simplify_eq. lia.
  - destruct i as [|i]; simpl in *.
    + simplify_eq. destruct acc as [|b acc]; [done |].
      specialize (Hhd b eq_refl).
      specialize (IH Hs 0%nat j b y eq_refl Hj ltac:(lia)). lia.
    + apply (IH Hs i j); [done | done | lia].
Qed.

Lemma nondecreasing_snoc acc z :
  nondecreasing acc = true →
  (∀ y, last acc = Some y → y <= z) →
  nondecreasing (acc ++ [z]) = true.
Proof.
  induction acc as [|a acc IH]; intros Hs Hlast; [done |].
  apply nondecreasing_cons in Hs as [Hs Hhd].
  change ((a :: acc) ++ [z]) with (a :: (acc ++ [z])).
  apply nondecreasing_cons. split.
  - apply IH; [done |]. intros y Hy. apply Hlast.
    rewrite last_cons, Hy. done.
  - destruct acc as [|b acc]; simpl.
    + intros y [= <-]. by apply Hlast.
    + intros y [= <-]. by apply Hhd.
Qed.

Lemma cumulative_index_nil : cumulative_index 0 0 [].
Proof. by repeat split. Qed.

(** Appending [sum + w] for a weight [w >= 0] keeps the invariant. *)
Lemma cumulative_index_snoc n sum acc w :
  cumulative_index n sum acc → 0 <= sum → 0 <= w →
  cumulative_index (S n) (sum + w) (acc ++ [sum + w]).
Proof.
  intros (Hlen & Hs & Hlast) Hsum Hw. repeat split.
  - rewrite length_app. simpl. lia.
  - apply nondecreasing_snoc; [done |]. intros y Hy.
    rewrite Hy in Hlast. simpl in Hlast. lia.
  - by rewrite last_snoc.
Qed.

(** On a state that satisfies the invariant, the binary search of
    [ChooseProgram] ends on the first entry that is [>= r], for every
    [r <= sumPrios]. *)
Lemma Search_cumulative n sum acc r :
  cumulative_index n sum acc → n ≠ 0%nat → r <= sum →
  let idx := gosort.Search (length acc) (fun i => r <=? nth i acc 0) in
  (idx < n)%nat ∧ first_at_least acc r idx.
Proof.
  intros (Hlen & Hs & Hlast) Hn Hr idx.
  set (f := fun i : nat => r <=? nth i acc 0) in *.
  assert (Hmono : ∀ a b, (a <= b < length acc)%nat → f a = true → f b = true).
  { intros a b Hab. unfold f. rewrite !Z.leb_le. intros Ha.
    destruct (lookup_lt_is_Some_2 acc a ltac:(lia)) as [x Hx].
    destruct (lookup_lt_is_Some_2 acc b ltac:(lia)) as [y Hy].
    rewrite (nth_lookup_Some _ _ _ _ Hx) in Ha.
    rewrite (nth_lookup_Some _ _ _ _ Hy).
    pose proof (nondecreasing_lookup acc Hs a b x y Hx Hy ltac:(lia)). lia. }
  destruct (Search_first f (length acc) Hmono) as (Hle & Hfalse & Htrue).
  fold idx in Hle, Hfalse, Htrue.
  assert (Hend : acc !! pred (length acc) = Some sum).
  { rewrite <- last_lookup.
    destruct (lookup_lt_is_Some_2 acc (pred (length acc)) ltac:(lia))
      as [x Hx].
    rewrite <- last_lookup in Hx. rewrite Hx in Hlast |- *.
    simpl in Hlast. by subst. }
  assert (Hlt : (idx < length acc)%nat).
  { destruct (decide (idx = length acc)) as [Heq|]; [|lia].
    specialize (Hfalse (pred (length acc)) ltac:(lia)).
    unfold f in Hfalse. rewrite (nth_lookup_Some _ _ _ _ Hend) in Hfalse.
    apply Z.leb_gt in Hfalse. lia. }
  split; [lia |]. split.
  - destruct (lookup_lt_is_Some_2 acc idx Hlt) as [x Hx]. exists x.
    split; [done |]. specialize (Htrue idx ltac:(lia)). unfold f in Htrue.
    rewrite (nth_lookup_Some _ _ _ _ Hx) in Htrue. by apply Z.leb_le.
  - intros k y Hk Hy. specialize (Hfalse k Hk). unfold f in Hfalse.
    rewrite (nth_lookup_Some _ _ _ _ Hy) in Hfalse. by apply Z.leb_gt.
Qed.

End index_facts.

(** ** The scheduler *)

Section scheduler_facts.
Import signal corpus.

Lemma Len_nonneg (s : gmap Z Z) : 0 <= Len s.
Proof. unfold Len. lia. Qed.

Lemma max_int_value : int64.max_int = 9223372036854775807.
Proof. reflexivity. Qed.

Lemma min_int_value : int64.min_int = -9223372036854775808.
Proof. reflexivity. Qed.

(** The flag is raised exactly by a signal with an event in the range. *)
Lemma io_uring_flag_true (signal : gmap Z Z) :
  io_uring_flag signal = true ↔
  ∃ cover, is_Some (signal !! cover) ∧ in_io_uring cover = true.
Proof.
  unfold io_uring_flag.
  apply (map_fold_weak_ind (fun flag (m : gmap Z Z) =>
    flag = true ↔ ∃ cover, is_Some (m !! cover) ∧ in_io_uring cover = true)).
  - split; [done |]. intros (cover & [p Hp] & _).
    by rewrite lookup_empty in Hp.
  - intros cover p m flag Hfresh IH.
    destruct (in_io_uring cover) eqn:Hin.
    + split; [intros _ | done]. exists cover.
      by rewrite lookup_insert_eq.
    + rewrite IH. split; intros (c & [q Hq] & Hc); exists c.
      * rewrite lookup_insert_ne by congruence. eauto.
      * rewrite lookup_insert_ne in Hq by congruence. eauto.
Qed.

(** The weighted path of [ChooseProgram] on a state that satisfies the
    cumulative-index invariant: the index is in bounds and is the first
    one whose cumulative value is [>= r]. *)
Lemma weighted_path (progs : list Prog) sum acc r :
  cumulative_index (length progs) sum acc → progs ≠ [] → r <= sum →
  let idx := gosort.Search (length acc) (fun i => r <=? nth i acc 0) in
  ∃ p, progs !! idx = Some p ∧
       at_index progs idx = Return (Some p) ∧
       (idx < length progs)%nat ∧
       first_at_least acc r idx.
Proof.
  intros Hci Hne Hr idx.
  assert (Hn : length progs ≠ 0%nat) by by destruct progs.
  destruct (Search_cumulative _ _ _ r Hci Hn Hr) as (Hlt & Hfirst).
  fold idx in Hlt, Hfirst.
  destruct (lookup_lt_is_Some_2 progs idx Hlt) as [p Hp].
  exists p. unfold at_index. by rewrite Hp.
Qed.

Lemma Int63n_draw sum draw :
  0 <= sum < int64.max_int → 
  int64.add sum 1 = sum + 1 ∧
  gorand.Int63n draw (int64.add sum 1) = Return draw.
Proof.
  intros Hsum.
  assert (Hadd : int64.add sum 1 = sum + 1).
  { apply add_exact. unfold int64.in_range.
    rewrite min_int_value. lia. }
  split; [done |]. rewrite Hadd. unfold gorand.Int63n.
  destruct (sum + 1 <=? 0) eqn:E; [lia | done].
Qed.

End scheduler_facts.

(** The invariants of the states built by [saveProgram] and [replace], by
    induction on how the state was built; the script serves both
    revisions. *)
Ltac built_induction Hb :=
  induction Hb as [|t pl p signal Hb IH|t pl t' other Hb1 IH1 Hb2 IH2].

Section rev1_facts.
Import signal corpus corpus.Rev1.

Lemma weight_pos1 (signal : gmap Z Z) : 1 <= weight signal.
Proof.
  unfold weight. pose proof (Len_nonneg signal).
  destruct (io_uring_flag signal); lia.
Qed.

Lemma prio_of_exact1 (signal : gmap Z Z) :
  weight signal <= int64.max_int → prio_of signal = weight signal.
Proof.
  intros Hw. pose proof (weight_pos1 signal) as Hpos.
  pose proof (Len_nonneg signal) as Hlen.
  unfold prio_of, weight in *. cbv zeta.
  replace (if Len signal =? 0 then 1 else Len signal)
    with (Z.max 1 (Len signal)) by (destruct (Len signal =? 0) eqn:E; lia).
  destruct (io_uring_flag signal); [|lia].
  apply mul_exact. unfold int64.in_range. rewrite min_int_value. lia.
Qed.

Lemma built_nonneg1 t pl : built t pl → 0 <= t.
Proof.
  intros Hb. built_induction Hb; [lia | | done].
  pose proof (weight_pos1 signal). lia.
Qed.

Lemma built_index1 t pl :
  built t pl → t <= int64.max_int →
  sumPrios pl = t ∧
  cumulative_index (length (progs pl)) (sumPrios pl) (accPrios pl) ∧
  (progs pl ≠ [] → 1 <= t).
Proof.
  intros Hb. built_induction Hb; intros Hmax.
  - split; [done |]. split; [apply cumulative_index_nil | done].
  - pose proof (weight_pos1 signal) as Hpos.
    pose proof (built_nonneg1 _ _ Hb) as Ht.
    destruct IH as (Hsum & Hci & _); [lia |].
    assert (Hnew : int64.add (sumPrios pl) (prio_of signal)
                   = t + weight signal).
    { rewrite prio_of_exact1 by lia. rewrite Hsum. apply add_exact.
      unfold int64.in_range. rewrite min_int_value. lia. }
    unfold saveProgram. simpl. rewrite Hnew.
    split; [done |]. split; [|lia].
    rewrite length_app. simpl. rewrite Nat.add_1_r. rewrite Hsum in Hci.
    apply cumulative_index_snoc; [done | lia | lia].
  - simpl. by apply IH2.
Qed.

Lemma admit_all_built1 calls : ∀ t pl,
  built t pl → built (t + total_weight calls) (admit_all pl calls).
Proof.
  induction calls as [|[p signal] calls IH]; intros t pl Hb; simpl.
  - by rewrite Z.add_0_r.
  - rewrite Z.add_assoc. apply IH. by apply built_save.
Qed.

(** What holds of the two arrays whatever the arithmetic does. *)
Lemma admit_all_shape1 calls : ∀ pl,
  length (accPrios pl) = length (progs pl) →
  default 0 (last (accPrios pl)) = sumPrios pl →
  length (accPrios (admit_all pl calls)) = length (progs (admit_all pl calls)) ∧
  default 0 (last (accPrios (admit_all pl calls))) = sumPrios (admit_all pl calls).
Proof.
  induction calls as [|[p signal] calls IH]; intros pl Hlen Hlast; simpl.
  - done.
  - apply IH; simpl.
    + rewrite !length_app. simpl. lia.
    + by rewrite last_snoc.
Qed.

End rev1_facts.

Section rev2_facts.
Import signal corpus corpus.Rev2.

Lemma weight_pos2 (signal : gmap Z Z) : 1 <= weight signal.
Proof. unfold weight. lia. Qed.

Lemma prio_of_weight2 (signal : gmap Z Z) : prio_of signal = weight signal.
Proof.
  unfold prio_of, weight. pose proof (Len_nonneg signal). cbv zeta.
  destruct (Len signal =? 0) eqn:E; lia.
Qed.

Lemma built_nonneg2 t pl : built t pl → 0 <= t.
Proof.
  intros Hb. built_induction Hb; [lia | | done].
  pose proof (weight_pos2 signal). lia.
Qed.

Lemma built_index2 t pl :
  built t pl → t <= int64.max_int →
  sumPrios pl = t ∧
  cumulative_index (length (progs pl)) (sumPrios pl) (accPrios pl) ∧
  (progs pl ≠ [] → 1 <= t).
Proof.
  intros Hb. built_induction Hb; intros Hmax.
  - split; [done |]. split; [apply cumulative_index_nil | done].
  - pose proof (weight_pos2 signal) as Hpos.
    pose proof (built_nonneg2 _ _ Hb) as Ht.
    destruct IH as (Hsum & Hci & _); [lia |].
    assert (Hnew : int64.add (sumPrios pl) (prio_of signal)
                   = t + weight signal).
    { rewrite prio_of_weight2, Hsum. apply add_exact.
      unfold int64.in_range. rewrite min_int_value. lia. }
    unfold saveProgram. simpl. rewrite Hnew.
    split; [done |]. split; [|lia].
    rewrite length_app. simpl. rewrite Nat.add_1_r. rewrite Hsum in Hci.
    apply cumulative_index_snoc; [done | lia | lia].
  - simpl. by apply IH2.
Qed.

Lemma admit_all_built2 calls : ∀ t pl,
  built t pl → built (t + total_weight calls) (admit_all pl calls).
Proof.
  induction calls as [|[p signal] calls IH]; intros t pl Hb; simpl.
  - by rewrite Z.add_0_r.
  - rewrite Z.add_assoc. apply IH. by apply built_save.
Qed.

Lemma admit_all_shape2 calls : ∀ pl,
  length (accPrios pl) = length (progs pl) →
  default 0 (last (accPrios pl)) = sumPrios pl →
  length (accPrios (admit_all pl calls)) = length (progs (admit_all pl calls)) ∧
  default 0 (last (accPrios (admit_all pl calls))) = sumPrios (admit_all pl calls).
Proof.
  induction calls as [|[p signal] calls IH]; intros pl Hlen Hlast; simpl.
  - done.
  - apply IH; simpl.
    + rewrite !length_app. simpl. lia.
    + by rewrite last_snoc.
Qed.

(** The three ways through [ChooseProgram] on a state with a non-empty main
    list that satisfies the invariant. *)
Lemma ChooseProgram_cases pl d :
  cumulative_index (length (progs pl)) (sumPrios pl) (accPrios pl) →
  progs pl ≠ [] → 0 <= sumPrios pl < int64.max_int → draws_ok pl d →
  let idx := gosort.Search (length (accPrios pl))
               (fun i => d_randVal d <=? nth i (accPrios pl) 0) in
  ∃ p, ChooseProgram pl d = Return (Some p) ∧
       (idx < length (progs pl))%nat ∧
       first_at_least (accPrios pl) (d_randVal d) idx ∧
       if decide (d_coin d < 50 ∧ ioUringProgs pl ≠ [])
       then ioUringProgs pl !! Z.to_nat (d_pick d) = Some p
       else progs pl !! idx = Some p.
Proof.
  intros Hci Hne Hsum (Hrand & Hcoin & Hpick) idx.
  destruct (Int63n_draw (sumPrios pl) (d_randVal d) Hsum) as (Hadd & Hdraw).
  specialize (Hrand Hne). rewrite Hadd in Hrand.
  destruct (weighted_path (progs pl) _ _ (d_randVal d) Hci Hne ltac:(lia))
    as (p & Hp & Hat & Hlt & Hfirst).
  fold idx in Hp, Hat, Hlt, Hfirst.
  unfold ChooseProgram.
  destruct (length (progs pl) =? 0)%nat eqn:Hlen.
  { apply Nat.eqb_eq in Hlen. by destruct (progs pl). }
  rewrite Hdraw. cbn [mbind result_bind]. fold idx.
  change (gorand.Intn (d_coin d) 100) with (Return (A:=Z) (d_coin d)).
  cbn [mbind result_bind].
  destruct (d_coin d <? 50) eqn:Hc.
  - apply Z.ltb_lt in Hc.
    destruct (ioUringProgs pl) as [|q io] eqn:Hio.
    + exists p. rewrite decide_False by (intros [_ ?]; done). simpl. auto.
    + specialize (Hpick ltac:(done)).
      destruct (lookup_lt_is_Some_2 (q :: io) (Z.to_nat (d_pick d))
                  ltac:(lia)) as [p' Hp'].
      exists p'. rewrite decide_True by done.
      cbn [length Nat.eqb]. unfold gorand.Intn.
      assert (E : (Z.of_nat (S (length io)) <=? 0) = false)
        by (apply Z.leb_gt; lia).
      rewrite E. cbn [mbind result_bind]. unfold at_index. rewrite Hp'. auto.
  - apply Z.ltb_ge in Hc. exists p.
    rewrite decide_False by (intros [? _]; lia). auto.
Qed.

End rev2_facts.

Section scheduler_claims.
Import signal corpus.

(** Claim C1 fails as stated: in the first revision a signal with an event
    in the io_uring range gives the program 100000 times the weight
    [max(1, |S|)]. *)
Lemma saveProgram_rev1_scaled_weight :
  let signal : gmap Z Z := {[ io_uring_lo := 0 ]} in
  let pl := Rev1.saveProgram Rev1.empty 1%positive signal in
  Z.max 1 (Len signal) = 1 ∧
  Rev1.sumPrios pl = 100000 ∧
  Rev1.sumPrios pl ≠ Rev1.sumPrios Rev1.empty + Z.max 1 (Len signal).
Proof. vm_compute. repeat split; discriminate. Qed.

(** Claim C1, amended.  Let [w = max(1, |S|)].  In the revision with the
    protected subset [saveProgram] adds [w] to [sumPrios] in [int64]
    arithmetic, whether or not [S] meets the io_uring range, appends the
    new [sumPrios] to [accPrios] and the program to [progs]; the sum grows
    by exactly [w] when it fits [int64].  In the first revision the same
    holds with the weight [w] for a signal that does not meet the range
    and with the weight [100000 * w] for one that does. *)
Theorem saveProgram_weight (p : Prog) (signal : gmap Z Z) :
  let w := Z.max 1 (Len signal) in
  (∀ pl, let pl' := Rev2.saveProgram pl p signal in
     Rev2.sumPrios pl' = int64.add (Rev2.sumPrios pl) w ∧
     Rev2.accPrios pl' = Rev2.accPrios pl ++ [Rev2.sumPrios pl'] ∧
     Rev2.progs pl' = Rev2.progs pl ++ [p] ∧
     (int64.in_range (Rev2.sumPrios pl + w) →
      Rev2.sumPrios pl' = Rev2.sumPrios pl + w)) ∧
  (∀ pl, let pl' := Rev1.saveProgram pl p signal in
     let w1 := if io_uring_flag signal then int64.mul w 100000 else w in
     Rev1.sumPrios pl' = int64.add (Rev1.sumPrios pl) w1 ∧
     Rev1.accPrios pl' = Rev1.accPrios pl ++ [Rev1.sumPrios pl'] ∧
     Rev1.progs pl' = Rev1.progs pl ++ [p] ∧
     (int64.in_range (w * 100000) → int64.in_range (Rev1.sumPrios pl + w1) →
      Rev1.sumPrios pl' =
      Rev1.sumPrios pl + (if io_uring_flag signal then 100000 * w else w))) ∧
  (io_uring_flag signal = true ↔
   ∃ cover, is_Some (signal !! cover) ∧ in_io_uring cover = true).
Proof.
  intros w.
  assert (Hw : (if Len signal =? 0 then 1 else Len signal) = w).
  { subst w. pose proof (Len_nonneg signal).
    destruct (Len signal =? 0) eqn:E; lia. }
  split; [|split].
  - intros pl pl'. subst pl'. unfold Rev2.saveProgram, Rev2.prio_of.
    cbv zeta. simpl. rewrite Hw. repeat split. apply add_exact.
  - intros pl pl' w1. subst pl' w1. unfold Rev1.saveProgram, Rev1.prio_of.
    cbv zeta. simpl. rewrite Hw. repeat split.
    intros Hmul Hadd. rewrite add_exact by done.
    destruct (io_uring_flag signal); [|done].
    rewrite mul_exact by done. lia.
  - apply io_uring_flag_true.
Qed.

Lemma saveProgram_weight_witness :
  Rev2.sumPrios (Rev2.saveProgram Rev2.empty 1%positive {[ io_uring_lo := 0 ]})
  = 0 + Z.max 1 (Len ({[ io_uring_lo := 0 ]} : gmap Z Z)) ∧
  Rev1.sumPrios (Rev1.saveProgram Rev1.empty 1%positive {[ io_uring_lo := 0 ]})
  = 0 + 100000 * Z.max 1 (Len ({[ io_uring_lo := 0 ]} : gmap Z Z)).
Proof.
  pose proof (saveProgram_weight 1%positive {[ io_uring_lo := 0 ]})
    as (H2 & H1 & _).
  destruct (H2 Rev2.empty) as (_ & _ & _ & H2').
  destruct (H1 Rev1.empty) as (_ & _ & _ & H1').
  split.
  - apply H2'. vm_compute. split; discriminate.
  - apply H1'; vm_compute; split; discriminate.
Defined.

(** Claim C8.  After any run of [saveProgram] calls from the empty
    scheduler, in either revision, [accPrios] is as long as [progs] and
    ends with [sumPrios] ([sumPrios] is 0 when nothing was admitted); and
    as long as the weights add up to an [int64], [accPrios] does not
    decrease and [sumPrios] is that sum. *)
Theorem admit_all_cumulative_index (calls : list (Prog * gmap Z Z)) :
  (let pl := Rev2.admit_all Rev2.empty calls in
   length (Rev2.accPrios pl) = length (Rev2.progs pl) ∧
   default 0 (last (Rev2.accPrios pl)) = Rev2.sumPrios pl ∧
   (Rev2.total_weight calls <= int64.max_int →
    nondecreasing (Rev2.accPrios pl) = true ∧
    Rev2.sumPrios pl = Rev2.total_weight calls)) ∧
  (let pl := Rev1.admit_all Rev1.empty calls in
   length (Rev1.accPrios pl) = length (Rev1.progs pl) ∧
   default 0 (last (Rev1.accPrios pl)) = Rev1.sumPrios pl ∧
   (Rev1.total_weight calls <= int64.max_int →
    nondecreasing (Rev1.accPrios pl) = true ∧
    Rev1.sumPrios pl = Rev1.total_weight calls)).
Proof.
  split; intros pl.
  - destruct (admit_all_shape2 calls Rev2.empty eq_refl eq_refl) as [Hl Hs].
    split; [done |]. split; [done |]. intros Hfit.
    pose proof (admit_all_built2 calls 0 Rev2.empty Rev2.built_empty) as Hb.
    rewrite Z.add_0_l in Hb.
    destruct (built_index2 _ _ Hb Hfit) as (Hsum & (_ & Hnd & _) & _).
    done.
  - destruct (admit_all_shape1 calls Rev1.empty eq_refl eq_refl) as [Hl Hs].
    split; [done |]. split; [done |]. intros Hfit.
    pose proof (admit_all_built1 calls 0 Rev1.empty Rev1.built_empty) as Hb.
    rewrite Z.add_0_l in Hb.
    destruct (built_index1 _ _ Hb Hfit) as (Hsum & (_ & Hnd & _) & _).
    done.
Qed.

Lemma admit_all_cumulative_index_witness :
  Rev2.accPrios (Rev2.admit_all Rev2.empty
     [(1%positive, {[ 1 := 0; 2 := 0; 3 := 0 ]}); (2%positive, ∅)]) = [3; 4] ∧
  nondecreasing (Rev1.accPrios (Rev1.admit_all Rev1.empty
     [(1%positive, {[ io_uring_lo := 0 ]}); (2%positive, ∅)])) = true.
Proof.
  pose proof (admit_all_cumulative_index
     [(1%positive, {[ 1 := 0; 2 := 0; 3 := 0 ]}); (2%positive, ∅)])
    as ((_ & _ & H2) & _).
  pose proof (admit_all_cumulative_index
     [(1%positive, {[ io_uring_lo := 0 ]}); (2%positive, ∅)])
    as (_ & (_ & _ & H1)).
  split.
  - destruct H2 as [_ H2]; [vm_compute; discriminate |]. reflexivity.
  - apply H1. vm_compute. discriminate.
Defined.

End scheduler_claims.

Section choose_claims.
Import signal corpus.


End choose_claims.

Section choose_witnesses.
Import signal corpus.


End choose_witnesses.

Section total_claims.
Import signal corpus.

(** An append shows at the end of the slice it returns, whether it wrote
    in place or moved to a new array. *)
Lemma contents_append {A : Type} (h : list (list A)) (s : gomem.slice) (x : A) :
  shared.slice_ok h s →
  gomem.contents (gomem.append h s x).1 (gomem.append h s x).2
  = gomem.contents h s ++ [x] ∧
  shared.slice_ok (gomem.append h s x).1 (gomem.append h s x).2.
Proof.
  unfold shared.slice_ok, gomem.append, gomem.contents, gomem.array_of.
  destruct s as [[a|] n c]; cbn [gomem.arr gomem.len gomem.cap].
  - intros (cells & Hc & Hn). rewrite Hc. cbn [default from_option id].
    destruct (n <? c)%nat; cbn [fst snd gomem.arr gomem.len].
    + assert (Ha : (a < length h)%nat) by by eapply lookup_lt_Some.
      rewrite list_lookup_insert_eq by done. cbn [default from_option id].
      unfold gomem.write. destruct (n <? length cells)%nat eqn:E.
      * apply Nat.ltb_lt in E. split.
        -- rewrite (take_S_r _ _ x) by by apply list_lookup_insert_eq.
           by rewrite take_insert_ge by lia.
        -- eexists. split; [done |]. rewrite length_insert. lia.
      * apply Nat.ltb_ge in E. assert (n = length cells) as -> by lia.
        split.
        -- rewrite firstn_all.
           by rewrite firstn_all2 by (rewrite length_app; simpl; lia).
        -- eexists. split; [done |]. rewrite length_app. simpl. lia.
    + rewrite lookup_app_r by lia. rewrite Nat.sub_diag. cbn [default from_option id].
      simpl. split.
      * rewrite firstn_all2; [done |].
        rewrite length_app, length_take. simpl. lia.
      * eexists. split; [done |].
        rewrite length_app, length_take. simpl. lia.
  - intros [-> ->]. cbn [fst snd gomem.arr gomem.len take app].
    rewrite lookup_app_r by lia. rewrite Nat.sub_diag. simpl.
    split; [done |]. eexists. split; [done |]. simpl. lia.
Qed.

(** For the list it is called on, [saveProgram] over shared arrays does
    what [saveProgram] on lists does. *)
Lemma view_saveProgram h pl p (signal : gmap Z Z) :
  shared.ok h pl →
  shared.view (shared.saveProgram h pl p signal).1
              (shared.saveProgram h pl p signal).2
  = Rev2.saveProgram (shared.view h pl) p signal ∧
  shared.ok (shared.saveProgram h pl p signal).1
            (shared.saveProgram h pl p signal).2.
Proof.
  intros (Hp & Hi & Ha). unfold shared.saveProgram, shared.ok.
  set (sum := int64.add (shared.sumPrios pl) (Rev2.prio_of signal)).
  destruct (contents_append (shared.accArrays h) (shared.accPrios pl) sum Ha)
    as [Eacc Oacc].
  destruct (contents_append (shared.progArrays h) (shared.progs pl) p Hp)
    as [Epr Opr].
  destruct (contents_append (shared.ioArrays h) (shared.ioUringProgs pl) p Hi)
    as [Eio Oio].
  destruct (gomem.append (shared.accArrays h) (shared.accPrios pl) sum)
    as [accs acc].
  destruct (gomem.append (shared.progArrays h) (shared.progs pl) p)
    as [ps pr].
  unfold Rev2.saveProgram, shared.view.
  cbn [Rev2.progs Rev2.ioUringProgs Rev2.sumPrios Rev2.accPrios].
  fold sum. destruct (io_uring_flag signal).
  - destruct (gomem.append (shared.ioArrays h) (shared.ioUringProgs pl) p)
      as [ios io].
    cbn [fst snd shared.progs shared.ioUringProgs shared.sumPrios
         shared.accPrios shared.progArrays shared.ioArrays shared.accArrays]
      in *.
    by rewrite Eacc, Epr, Eio.
  - cbn [fst snd shared.progs shared.ioUringProgs shared.sumPrios
         shared.accPrios shared.progArrays shared.ioArrays shared.accArrays]
      in *.
    by rewrite Eacc, Epr.
Qed.

Lemma view_replace h pl other :
  shared.view h (shared.replace pl other)
  = Rev2.replace (shared.view h pl) (shared.view h other).
Proof. reflexivity. Qed.

(** Claim C9 fails as stated.  [replace] leaves the receiver on the arrays
    of the replacement: after three programs go to [other] (length 3,
    capacity 4), [pl.replace(other)], one program of weight 4 to [pl] and
    one more to [other], the last entries of [pl] are overwritten; [pl]
    shows [accPrios = [1; 2; 3; 4]] with [sumPrios = 7], and for the draw
    5 the search ends on index 4 and [pl.progs[4]] panics. *)
Lemma ChooseProgram_panics_after_shared_append :
  let s1 := shared.saveProgram shared.empty_heap shared.empty 1%positive ∅ in
  let s2 := shared.saveProgram s1.1 s1.2 2%positive ∅ in
  let s3 := shared.saveProgram s2.1 s2.2 3%positive ∅ in
  let other := s3.2 in
  let pl := shared.replace shared.empty other in
  let s4 := shared.saveProgram s3.1 pl 9%positive
              {[ 1 := 0; 2 := 0; 3 := 0; 4 := 0 ]} in
  let s5 := shared.saveProgram s4.1 other 10%positive ∅ in
  let d := Rev2.mkDraws 5 50 0 in
  shared.view s5.1 s4.2
  = Rev2.mkProgramsList [1; 2; 3; 10]%positive [] 7 [1; 2; 3; 4] ∧
  Rev2.draws_ok (shared.view s5.1 s4.2) d ∧
  shared.ChooseProgram s4.1 s4.2 d = Return (Some 9%positive) ∧
  shared.ChooseProgram s5.1 s4.2 d = Panic.
Proof.
  vm_compute. split; [reflexivity |]. split; [|split; reflexivity].
  split; [|split; [|done]].
  - intros _. split; [discriminate | reflexivity].
  - split; [discriminate | reflexivity].
Qed.

(** Claim C9, amended.  [ChooseProgram] returns nil exactly when the main
    list is empty.  On every state that satisfies the cumulative-index
    invariant with [sumPrios] in [[0, max_int)], and for all draws in the
    ranges of their generators, it returns and does not panic: the index
    of the binary search is within [progs], and the protected subset is
    indexed only when it is not empty.  Every state reached from the empty
    scheduler by [saveProgram] calls whose weights add up to less than
    [max_int] is such a state, and so is the receiver of [replace] at its
    return when the replacement is one.  This holds in both revisions. *)
Theorem ChooseProgram_total_on_invariant :
  (∀ pl d,
     (Rev2.ChooseProgram pl d = Return None ↔ Rev2.progs pl = []) ∧
     (cumulative_index (length (Rev2.progs pl)) (Rev2.sumPrios pl)
                       (Rev2.accPrios pl) →
      0 <= Rev2.sumPrios pl < int64.max_int → Rev2.draws_ok pl d →
      ∃ res, Rev2.ChooseProgram pl d = Return res ∧
             (Rev2.progs pl ≠ [] →
              (gosort.Search (length (Rev2.accPrios pl))
                 (fun i => (Rev2.d_randVal d <=? nth i (Rev2.accPrios pl) 0)%Z)
               < length (Rev2.progs pl))%nat))) ∧
  (∀ pl draw,
     (Rev1.ChooseProgram pl draw = Return None ↔ Rev1.progs pl = []) ∧
     (cumulative_index (length (Rev1.progs pl)) (Rev1.sumPrios pl)
                       (Rev1.accPrios pl) →
      0 <= Rev1.sumPrios pl < int64.max_int → Rev1.draw_ok pl draw →
      ∃ res, Rev1.ChooseProgram pl draw = Return res ∧
             (Rev1.progs pl ≠ [] →
              (gosort.Search (length (Rev1.accPrios pl))
                 (fun i => (draw <=? nth i (Rev1.accPrios pl) 0)%Z)
               < length (Rev1.progs pl))%nat))) ∧
  (∀ calls,
     Rev2.total_weight calls < int64.max_int →
     let pl := Rev2.admit_all Rev2.empty calls in
     cumulative_index (length (Rev2.progs pl)) (Rev2.sumPrios pl)
                      (Rev2.accPrios pl) ∧
     0 <= Rev2.sumPrios pl < int64.max_int) ∧
  (∀ calls,
     Rev1.total_weight calls < int64.max_int →
     let pl := Rev1.admit_all Rev1.empty calls in
     cumulative_index (length (Rev1.progs pl)) (Rev1.sumPrios pl)
                      (Rev1.accPrios pl) ∧
     0 <= Rev1.sumPrios pl < int64.max_int) ∧
  (∀ pl other,
     cumulative_index (length (Rev2.progs other)) (Rev2.sumPrios other)
                      (Rev2.accPrios other) →
     cumulative_index (length (Rev2.progs (Rev2.replace pl other)))
                      (Rev2.sumPrios (Rev2.replace pl other))
                      (Rev2.accPrios (Rev2.replace pl other)) ∧
     Rev2.sumPrios (Rev2.replace pl other) = Rev2.sumPrios other) ∧
  (∀ pl other,
     cumulative_index (length (Rev1.progs other)) (Rev1.sumPrios other)
                      (Rev1.accPrios other) →
     cumulative_index (length (Rev1.progs (Rev1.replace pl other)))
                      (Rev1.sumPrios (Rev1.replace pl other))
                      (Rev1.accPrios (Rev1.replace pl other)) ∧
     Rev1.sumPrios (Rev1.replace pl other) = Rev1.sumPrios other).
Proof.
  split; [|split; [|split; [|split; [|split]]]].
  - intros pl d. split.
    + unfold Rev2.ChooseProgram.
      destruct (Rev2.progs pl) as [|q progs] eqn:Hprogs; [done |].
      cbn [length Nat.eqb]. split; [|done].
      destruct (gorand.Int63n _ _) as [|randVal]; [done |].
      cbn [mbind result_bind].
      change (gorand.Intn (Rev2.d_coin d) 100)
        with (Return (A:=Z) (Rev2.d_coin d)).
      cbn [mbind result_bind]. unfold at_index.
      destruct (Rev2.d_coin d <? 50).
      * destruct (length (Rev2.ioUringProgs pl) =? 0)%nat.
        -- by destruct (_ !! _).
        -- destruct (gorand.Intn _ _) as [|pick]; [done |].
           cbn [mbind result_bind]. by destruct (_ !! _).
      * by destruct (_ !! _).
    + intros Hci Hsum Hd.
      destruct (Rev2.progs pl) as [|q progs] eqn:Hprogs.
      * exists None. unfold Rev2.ChooseProgram. rewrite Hprogs. done.
      * rewrite <- Hprogs in *.
        assert (Hne : Rev2.progs pl ≠ []) by (rewrite Hprogs; done).
        destruct (ChooseProgram_cases pl d Hci Hne Hsum Hd)
          as (p & Hres & Hlt & _).
        exists (Some p). split; done.
  - intros pl draw. split.
    + unfold Rev1.ChooseProgram.
      destruct (Rev1.progs pl) as [|q progs] eqn:Hprogs; [done |].
      cbn [length Nat.eqb]. split; [|done].
      destruct (gorand.Int63n _ _) as [|randVal]; [done |].
      cbn [mbind result_bind]. unfold at_index. by destruct (_ !! _).
    + intros Hci Hsum Hd.
      destruct (Rev1.progs pl) as [|q progs] eqn:Hprogs.
      * exists None. unfold Rev1.ChooseProgram. rewrite Hprogs. done.
      * rewrite <- Hprogs in *.
        assert (Hne : Rev1.progs pl ≠ []) by (rewrite Hprogs; done).
        specialize (Hd Hne).
        destruct (Int63n_draw (Rev1.sumPrios pl) draw Hsum) as (Hadd & Hdraw).
        rewrite Hadd in Hd.
        destruct (weighted_path (Rev1.progs pl) _ _ draw Hci Hne ltac:(lia))
          as (p & Hp & Hat & Hlt & _).
        exists (Some p). split; [|done].
        unfold Rev1.ChooseProgram.
        destruct (length (Rev1.progs pl) =? 0)%nat eqn:Hlen.
        { apply Nat.eqb_eq in Hlen. by destruct (Rev1.progs pl). }
        rewrite Hdraw. done.
  - intros calls Hfit pl.
    pose proof (admit_all_built2 calls 0 Rev2.empty Rev2.built_empty) as Hb.
    rewrite Z.add_0_l in Hb.
    destruct (built_index2 _ _ Hb ltac:(lia)) as (Hsum & Hci & _).
    pose proof (built_nonneg2 _ _ Hb). fold pl in Hsum, Hci.
    split; [done | lia].
  - intros calls Hfit pl.
    pose proof (admit_all_built1 calls 0 Rev1.empty Rev1.built_empty) as Hb.
    rewrite Z.add_0_l in Hb.
    destruct (built_index1 _ _ Hb ltac:(lia)) as (Hsum & Hci & _).
    pose proof (built_nonneg1 _ _ Hb). fold pl in Hsum, Hci.
    split; [done | lia].
  - intros pl other Hci. by split.
  - intros pl other Hci. by split.
Qed.

Lemma ChooseProgram_total_on_invariant_witness :
  let pl := Rev2.admit_all Rev2.empty
              [(1%positive, {[ 1 := 0; 2 := 0; 3 := 0 ]});
               (2%positive, {[ io_uring_lo := 0 ]})] in
  ∃ res, Rev2.ChooseProgram pl (Rev2.mkDraws 4 49 0) = Return res.
Proof.
  intros pl.
  destruct ChooseProgram_total_on_invariant as (H2 & _ & Hinv & _).
  destruct (Hinv [(1%positive, {[ 1 := 0; 2 := 0; 3 := 0 ]});
                  (2%positive, {[ io_uring_lo := 0 ]})]) as (Hci & Hsum);
    [vm_compute; reflexivity |].
  assert (Hd : Rev2.draws_ok pl (Rev2.mkDraws 4 49 0)).
  { split; [|split; [done |]]; intros _; vm_compute;
      (split; [discriminate | reflexivity]). }
  destruct (H2 pl (Rev2.mkDraws 4 49 0)) as (_ & Htotal).
  destruct (Htotal Hci Hsum Hd) as (res & Hres & _).
  by exists res.
Defined.

(** Claim C6 fails as stated: [replace] does not assign [ioUringProgs], so
    after a replace the protected subset is still the one of the state
    that was replaced. *)
Lemma replace_keeps_ioUringProgs :
  let pl := Rev2.saveProgram Rev2.empty 1%positive {[ io_uring_lo := 0 ]} in
  Rev2.ioUringProgs (Rev2.replace pl Rev2.empty) = [1%positive] ∧
  Rev2.ioUringProgs (Rev2.replace pl Rev2.empty)
  ≠ Rev2.ioUringProgs Rev2.empty.
Proof. vm_compute. split; [reflexivity | discriminate]. Qed.

(** Claim C6, amended.  [replace] takes [progs], [accPrios] and [sumPrios]
    from the replacement, all three together, and leaves the protected
    subset as it was; in the first revision, which has no protected
    subset, the state after [replace] is the replacement. *)
Theorem replace_swaps_main_list :
  (∀ pl other,
     Rev2.progs (Rev2.replace pl other) = Rev2.progs other ∧
     Rev2.accPrios (Rev2.replace pl other) = Rev2.accPrios other ∧
     Rev2.sumPrios (Rev2.replace pl other) = Rev2.sumPrios other ∧
     Rev2.ioUringProgs (Rev2.replace pl other) = Rev2.ioUringProgs pl) ∧
  (∀ pl other, Rev1.replace pl other = other).
Proof.
  split.
  - intros pl other. by repeat split.
  - intros pl [progs sum acc]. reflexivity.
Qed.

(** Claim C10.  With an empty main list [ChooseProgram] returns nil
    whatever the protected subset holds.  Such a state with a non-empty
    protected subset is reached from the empty scheduler: [replace] keeps
    the protected subset of the state it overwrites, so replacing a state
    that holds a protected program by the empty list gives one. *)
Theorem ChooseProgram_empty_main_list :
  (∀ pl d, Rev2.progs pl = [] → Rev2.ChooseProgram pl d = Return None) ∧
  (∀ t pl t' other,
     Rev2.built t pl → Rev2.built t' other →
     Rev2.built t' (Rev2.replace pl other) ∧
     Rev2.ioUringProgs (Rev2.replace pl other) = Rev2.ioUringProgs pl) ∧
  (∃ t pl, Rev2.built t pl ∧ Rev2.progs pl = [] ∧
           Rev2.ioUringProgs pl ≠ [] ∧
           ∀ d, Rev2.ChooseProgram pl d = Return None).
Proof.
  assert (Hnil : ∀ pl d, Rev2.progs pl = [] →
                         Rev2.ChooseProgram pl d = Return None).
  { intros pl d Hp. unfold Rev2.ChooseProgram. by rewrite Hp. }
  split; [done |]. split.
  - intros t pl t' other Hb Hb'. split; [|done].
    by apply (Rev2.built_replace t).
  - exists 0, (Rev2.replace
      (Rev2.saveProgram Rev2.empty 1%positive {[ io_uring_lo := 0 ]})
      Rev2.empty).
    split; [|split; [done |split]].
    + apply (Rev2.built_replace (0 + Rev2.weight {[ io_uring_lo := 0 ]})).
      * apply Rev2.built_save, Rev2.built_empty.
      * apply Rev2.built_empty.
    + vm_compute. discriminate.
    + intros d. by apply Hnil.
Qed.

Lemma ChooseProgram_empty_main_list_witness :
  let pl := Rev2.replace
              (Rev2.saveProgram Rev2.empty 1%positive {[ io_uring_lo := 0 ]})
              Rev2.empty in
  Rev2.ioUringProgs pl = [1%positive] ∧
  Rev2.ChooseProgram pl (Rev2.mkDraws 0 0 0) = Return None.
Proof.
  intros pl. destruct ChooseProgram_empty_main_list as (Hnil & _ & _).
  split; [reflexivity |]. apply Hnil. reflexivity.
Defined.

End total_claims.

(** * Further properties of the tracker *)

Section cover_more.
Import signal fuzzer.
Implicit Types (cover : Cover) (signal raw : list Z) (e prio : Z).

Lemma below_trans (s t u : gmap Z Z) : below s t → below t u → below s u.
Proof.
  intros Hst Htu e p He. destruct (Hst e p He) as (q & Hq & Hpq).
  destruct (Htu e q Hq) as (r & Hr & Hqr). exists r. split; [done | lia].
Qed.

Lemma covered_below (s t : gmap Z Z) prio e :
  below s t → covered s prio e = true → covered t prio e = true.
Proof.
  intros Hst. unfold covered. destruct (s !! e) as [p|] eqn:Hs; [|done].
  destruct (Hst e p Hs) as (q & -> & Hpq). rewrite !Z.leb_le. lia.
Qed.

Lemma covered_weaken (s : gmap Z Z) prio prio' e :
  prio' <= prio → covered s prio e = true → covered s prio' e = true.
Proof.
  intros Hle. unfold covered. destruct (s !! e); [|done].
  rewrite !Z.leb_le. lia.
Qed.

Lemma Merge_assoc (s t u : gmap Z Z) :
  Merge (Merge s t) u = Merge s (Merge t u).
Proof.
  apply map_eq. intros e. rewrite !lookup_Merge.
  destruct (s !! e) as [a|], (t !! e) as [b|], (u !! e) as [c|]; try done.
  f_equal. destruct (a <? b) eqn:E1, (b <? c) eqn:E2;
    repeat match goal with
           | |- context [?x <? ?y] => destruct (x <? y) eqn:?
           end; lia.
Qed.

Lemma step_maxSignal_below cover (o : op) :
  below (maxSignal cover) (maxSignal (step cover o)).
Proof.
  destruct o as [sign|signal prio|]; simpl.
  - apply below_Merge_l, below_refl.
  - rewrite addRawMaxSignal_state. simpl. apply below_Merge_l, below_refl.
  - apply below_refl.
Qed.

Lemma run_maxSignal_below (ops : list op) : ∀ cover,
  below (maxSignal cover) (maxSignal (run cover ops)).
Proof.
  induction ops as [|o ops IH]; intros cover; simpl.
  - apply below_refl.
  - eapply below_trans; [apply step_maxSignal_below | apply IH].
Qed.

(** The known set only grows: whatever operations are applied, every
    known event stays known and its recorded priority does not drop. *)
Theorem maxSignal_monotone cover (ops : list op) :
  below (maxSignal cover) (maxSignal (run cover ops)) ∧
  dom (maxSignal cover) ⊆ dom (maxSignal (run cover ops)).
Proof.
  pose proof (run_maxSignal_below ops cover) as H.
  split; [done | by apply below_dom].
Qed.

(** The invariant behind [AddMaxSignal]'s comment: [e] is known with
    priority [p] or more, and is pending only above [p]. *)
Lemma step_not_chased cover (o : op) p e :
  covered (maxSignal cover) p e = true →
  (∀ q, newSignal cover !! e = Some q → p < q) →
  ∀ q, newSignal (step cover o) !! e = Some q → p < q.
Proof.
  intros Hcov Hnew q. destruct o as [sign|signal prio|]; simpl.
  - apply Hnew.
  - rewrite addRawMaxSignal_state. simpl.
    rewrite lookup_Merge, lookup_DiffRaw.
    destruct (decide (e ∈ filterFsSignal signal ∧
                      covered (maxSignal cover) prio e = false))
      as [[_ Hn]|_].
    + assert (Hp : p < prio).
      { destruct (Z.lt_ge_cases p prio) as [|Hge]; [done |].
        rewrite (covered_weaken _ p prio e Hge Hcov) in Hn. done. }
      destruct (newSignal cover !! e) as [q0|] eqn:Hq0.
      * specialize (Hnew q0 eq_refl). intros [= <-].
        destruct (q0 <? prio); lia.
      * intros [= <-]. done.
    + destruct (newSignal cover !! e) as [q0|] eqn:Hq0; [|done].
      intros [= <-]. by apply Hnew.
  - by rewrite lookup_empty.
Qed.

Lemma run_not_chased (ops : list op) p e : ∀ cover,
  covered (maxSignal cover) p e = true →
  (∀ q, newSignal cover !! e = Some q → p < q) →
  ∀ q, newSignal (run cover ops) !! e = Some q → p < q.
Proof.
  induction ops as [|o ops IH]; intros cover Hcov Hnew; simpl; [done |].
  apply IH.
  - eapply covered_below; [apply step_maxSignal_below | done].
  - by apply step_not_chased.
Qed.

(** Signal handed to [AddMaxSignal] is no longer chased after.  Let [sign]
    hold [e] with priority [p].  After [AddMaxSignal cover sign] and any
    further operations, no call of [addRawMaxSignal] with a priority up to
    [p] returns [e]; and if [e] was not pending, [GrabSignalDelta] returns
    it only with a priority above [p] (after it was seen again with
    one). *)
Theorem AddMaxSignal_not_chased cover (sign : gmap Z Z) e p (ops : list op) :
  sign !! e = Some p →
  let after := run (AddMaxSignal cover sign) ops in
  (∀ signal prio, prio <= p →
     (addRawMaxSignal after signal prio).2 !! e = None) ∧
  (newSignal cover !! e = None →
   ∀ q, (GrabSignalDelta after).2 !! e = Some q → p < q).
Proof.
  intros Hsign after.
  assert (Hcov0 : covered (maxSignal (AddMaxSignal cover sign)) p e = true).
  { unfold covered. simpl. rewrite lookup_Merge, Hsign.
    destruct (maxSignal cover !! e) as [k|]; [|apply Z.leb_refl].
    destruct (k <? p) eqn:E; apply Z.leb_le; lia. }
  split.
  - intros signal prio Hle.
    assert (Hcov : covered (maxSignal after) prio e = true).
    { apply (covered_weaken _ p); [done |].
      eapply covered_below; [apply run_maxSignal_below | done]. }
    rewrite addRawMaxSignal_state. simpl.
    rewrite lookup_DiffRaw, decide_False; [done |].
    intros [_ Hn]. congruence.
  - intros Hfresh q. simpl.
    apply (run_not_chased ops p e (AddMaxSignal cover sign) Hcov0).
    simpl. intros q0. by rewrite Hfresh.
Qed.

Lemma AddMaxSignal_not_chased_witness :
  let cover := AddMaxSignal newCover {[ fs_lo := 2 ]} in
  (addRawMaxSignal cover [fs_lo] 2).2 !! fs_lo = None ∧
  (addRawMaxSignal cover [fs_lo] 3).2 !! fs_lo = Some 3.
Proof.
  intros cover.
  assert (Hs : ({[ fs_lo := 2 ]} : gmap Z Z) !! fs_lo = Some 2)
    by apply lookup_singleton_eq.
  pose proof (AddMaxSignal_not_chased newCover {[ fs_lo := 2 ]} fs_lo 2 [] Hs)
    as (H & _).
  split; [apply H; lia | vm_compute; reflexivity].
Defined.

End cover_more.

Section cover_update.
Import signal fuzzer.
Implicit Types (cover : Cover) (signal raw : list Z) (e prio : Z).

Lemma addRawMaxSignal_outside_delta cover signal prio e :
  (addRawMaxSignal cover signal prio).2 !! e = None →
  maxSignal (addRawMaxSignal cover signal prio).1 !! e = maxSignal cover !! e.
Proof.
  rewrite addRawMaxSignal_state. simpl.
  intros Hd. rewrite lookup_Merge, Hd. by destruct (maxSignal cover !! e).
Qed.

(** What an ingest does to the known set: the events of the delta are
    exactly the events it changes, each was not recorded with the tag or
    more before, and each is recorded with the tag after; the known set
    after the call is the delta laid over the known set before. *)
Theorem addRawMaxSignal_update cover signal prio :
  let r := addRawMaxSignal cover signal prio in
  (∀ e q, r.2 !! e = Some q →
          q = prio ∧ covered (maxSignal cover) prio e = false ∧
          maxSignal r.1 !! e = Some prio) ∧
  (∀ e, r.2 !! e = None → maxSignal r.1 !! e = maxSignal cover !! e) ∧
  maxSignal r.1 = r.2 ∪ maxSignal cover.
Proof.
  intros r.
  assert (Hin : ∀ e q, r.2 !! e = Some q →
            q = prio ∧ covered (maxSignal cover) prio e = false ∧
            maxSignal r.1 !! e = Some prio).
  { intros e q. subst r. rewrite addRawMaxSignal_state. simpl.
    rewrite lookup_Merge, lookup_DiffRaw.
    case_decide as Hd; [|done]. destruct Hd as [_ Hn]. intros [= <-].
    split; [done |]. split; [done |].
    unfold covered in Hn. destruct (maxSignal cover !! e) as [k|]; [|done].
    apply Z.leb_gt in Hn. destruct (k <? prio) eqn:E; [done | lia]. }
  assert (Hout : ∀ e, r.2 !! e = None →
            maxSignal r.1 !! e = maxSignal cover !! e)
    by (intros e; apply addRawMaxSignal_outside_delta).
  split; [done |]. split; [done |].
  apply map_eq. intros e. rewrite lookup_union.
  destruct (r.2 !! e) as [q|] eqn:Hq.
  - destruct (Hin e q Hq) as (-> & _ & ->).
    by destruct (maxSignal cover !! e).
  - rewrite (Hout e Hq). by destruct (maxSignal cover !! e).
Qed.

Lemma addRawMaxSignal_update_witness :
  let cover := AddMaxSignal newCover {[ fs_lo := 1 ]} in
  let r := addRawMaxSignal cover [fs_lo; fs_hi] 2 in
  maxSignal r.1 !! fs_lo = Some 2 ∧ maxSignal r.1 !! fs_hi = Some 2.
Proof.
  intros cover r.
  pose proof (addRawMaxSignal_update cover [fs_lo; fs_hi] 2) as (H & _ & _).
  split.
  - apply (H fs_lo 2). vm_compute. reflexivity.
  - apply (H fs_hi 2). vm_compute. reflexivity.
Defined.

(** The snapshot taken after an ingest records every event of the trace
    that lies in the target range, with the tag of the call or more. *)
Theorem CopyMaxSignal_covers cover signal prio e :
  e ∈ signal → in_fs e = true →
  covered (CopyMaxSignal (addRawMaxSignal cover signal prio).1) prio e = true.
Proof.
  intros He Hin. unfold CopyMaxSignal. apply addRawMaxSignal_covers.
  by apply elem_of_filterFsSignal.
Qed.

Lemma CopyMaxSignal_covers_witness :
  covered (CopyMaxSignal (addRawMaxSignal newCover [0; fs_hi] 5).1) 5 fs_hi
  = true.
Proof.
  apply CopyMaxSignal_covers.
  - apply elem_of_cons. right. apply elem_of_cons. by left.
  - reflexivity.
Defined.

Lemma filterFsSignal_app signal1 signal2 :
  filterFsSignal (signal1 ++ signal2)
  = filterFsSignal signal1 ++ filterFsSignal signal2.
Proof.
  induction signal1 as [|x l IH]; simpl; [done |].
  destruct (in_fs x); simpl; by rewrite IH.
Qed.

(** [filterFsSignal] keeps the order of the trace and drops events only:
    its result is a sublist of the trace, made of events in the range;
    filtering twice is filtering once; and a trace cut in two can be
    filtered piece by piece. *)
Theorem filterFsSignal_structure signal1 signal2 :
  filterFsSignal signal1 `sublist_of` signal1 ∧
  Forall (fun e => in_fs e = true) (filterFsSignal signal1) ∧
  filterFsSignal (filterFsSignal signal1) = filterFsSignal signal1 ∧
  filterFsSignal (signal1 ++ signal2)
  = filterFsSignal signal1 ++ filterFsSignal signal2.
Proof.
  split; [|split; [|split]].
  - induction signal1 as [|x l IH]; simpl; [constructor |].
    destruct (in_fs x); by constructor.
  - induction signal1 as [|x l IH]; simpl; [constructor |].
    destruct (in_fs x) eqn:Hx; [by constructor | done].
  - induction signal1 as [|x l IH]; simpl; [done |].
    destruct (in_fs x) eqn:Hx; [|done]. simpl. by rewrite Hx, IH.
  - apply filterFsSignal_app.
Qed.

(** Ingesting a trace in two pieces, with the same tag, is ingesting it at
    once: the tracker ends the same, the two deltas have no event in
    common, and their union is the delta of the whole trace. *)
Theorem addRawMaxSignal_app cover signal1 signal2 prio :
  let whole := addRawMaxSignal cover (signal1 ++ signal2) prio in
  let first := addRawMaxSignal cover signal1 prio in
  let second := addRawMaxSignal first.1 signal2 prio in
  second.1 = whole.1 ∧
  Merge first.2 second.2 = whole.2 ∧
  dom first.2 ## dom second.2.
Proof.
  intros whole first second.
  assert (Hd1 : ∀ e, first.2 !! e =
            if decide (e ∈ filterFsSignal signal1 ∧
                       covered (maxSignal cover) prio e = false)
            then Some prio else None).
  { intros e. subst first. rewrite addRawMaxSignal_state. simpl.
    apply lookup_DiffRaw. }
  assert (Hcov : ∀ e, covered (maxSignal first.1) prio e =
            covered (maxSignal cover) prio e
            || bool_decide (e ∈ filterFsSignal signal1)).
  { intros e. destruct (bool_decide_reflect (e ∈ filterFsSignal signal1))
      as [Hin|Hnin].
    - rewrite orb_true_r. by apply addRawMaxSignal_covers.
    - rewrite orb_false_r. unfold covered.
      unfold first. rewrite addRawMaxSignal_outside_delta; [done |].
      fold first. rewrite Hd1, decide_False; [done |]. intros [? _]; done. }
  assert (Hd2 : ∀ e, second.2 !! e =
            if decide (e ∈ filterFsSignal signal2 ∧
                       covered (maxSignal first.1) prio e = false)
            then Some prio else None).
  { intros e. subst second. rewrite addRawMaxSignal_state. simpl.
    apply lookup_DiffRaw. }
  assert (Hmerge : Merge first.2 second.2 = whole.2).
  { apply map_eq. intros e. rewrite lookup_Merge, Hd1, Hd2, Hcov.
    subst whole. rewrite addRawMaxSignal_state. simpl.
    rewrite lookup_DiffRaw, filterFsSignal_app.
    destruct (covered (maxSignal cover) prio e) eqn:Hc; simpl.
    - rewrite !decide_False by (intros [_ ?]; done). done.
    - destruct (decide (e ∈ filterFsSignal signal1)) as [Hin|Hnin].
      + rewrite (decide_True (P := _ ∧ false = false)) by done.
        rewrite bool_decide_eq_true_2 by done.
        rewrite (decide_False (P := _ ∧ true = false))
          by (intros [_ ?]; done).
        rewrite decide_True; [done |]. split; [|done].
        apply elem_of_app. by left.
      + rewrite (decide_False (P := e ∈ filterFsSignal signal1 ∧ _))
          by (intros [? _]; done).
        rewrite bool_decide_eq_false_2 by done.
        destruct (decide (e ∈ filterFsSignal signal2)) as [Hin2|Hnin2].
        * rewrite !decide_True; [done | |done].
          split; [|done]. apply elem_of_app. by right.
        * rewrite !decide_False; [done | |].
          -- intros [Hin _]. apply elem_of_app in Hin as [?|?]; done.
          -- intros [? _]; done. }
  split; [|split; [done |]].
  - clear Hd1 Hd2 Hcov. unfold whole, second, first in *.
    rewrite !addRawMaxSignal_state in Hmerge |- *.
    cbn [fst snd maxSignal newSignal] in Hmerge |- *.
    by rewrite !Merge_assoc, Hmerge.
  - apply elem_of_disjoint. intros e. rewrite !elem_of_dom.
    intros [q1 H1] [q2 H2]. rewrite Hd1 in H1. rewrite Hd2 in H2.
    destruct (decide (e ∈ filterFsSignal signal1 ∧
                      covered (maxSignal cover) prio e = false))
      as [[Hin _]|_]; [|done].
    destruct (decide (e ∈ filterFsSignal signal2 ∧
                      covered (maxSignal first.1) prio e = false))
      as [[_ Hy]|_]; [|done].
    rewrite Hcov, bool_decide_eq_true_2, orb_true_r in Hy by done. done.
Qed.

End cover_update.

Section cover2_facts.
Import signal.

Lemma elem_of_filterFsSignal2 (signal : list Z) e :
  e ∈ fuzzer2.filterFsSignal signal ↔ e ∈ signal ∧ fuzzer2.in_fs e = true.
Proof.
  induction signal as [|x signal IH]; simpl.
  - split; [intros H | intros [H _]]; by apply elem_of_nil in H.
  - destruct (fuzzer2.in_fs x) eqn:Hx; rewrite ?elem_of_cons, IH.
    + split; [intros [->|[? ?]] | intros [[->|?] ?]]; auto.
    + split; [intros [? ?] | intros [[->|?] ?]]; auto. congruence.
Qed.

Lemma addRawMaxSignal2_state (cover : fuzzer.Cover) (signal : list Z) prio :
  let diff := DiffRaw (fuzzer.maxSignal cover)
                      (fuzzer2.filterFsSignal signal) prio in
  fuzzer2.addRawMaxSignal cover signal prio =
  (fuzzer.mkCover (Merge (fuzzer.maxSignal cover) diff)
                  (Merge (fuzzer.newSignal cover) diff), diff).
Proof.
  intros diff. unfold fuzzer2.addRawMaxSignal. fold diff.
  destruct (Empty diff) eqn:He; [|done].
  apply Empty_true in He. rewrite He, !Merge_empty_r. by destruct cover.
Qed.

(** The revision with two target ranges keeps to them: every event of a
    delta is an event of the trace that lies in one of the two ranges, and
    outside the ranges the known and the pending set are left as they
    were. *)
Theorem addRawMaxSignal2_scope (cover : fuzzer.Cover) (signal : list Z) prio :
  let r := fuzzer2.addRawMaxSignal cover signal prio in
  (∀ e, is_Some (r.2 !! e) →
        e ∈ signal ∧
        (0xffffffff831ba096 <= e <= 0xffffffff838eeede ∨
         0xffffffff85b767b8 <= e <= 0xffffffff85b7e8d1)) ∧
  (∀ e, ¬ (0xffffffff831ba096 <= e <= 0xffffffff838eeede ∨
           0xffffffff85b767b8 <= e <= 0xffffffff85b7e8d1) →
        fuzzer.maxSignal r.1 !! e = fuzzer.maxSignal cover !! e ∧
        fuzzer.newSignal r.1 !! e = fuzzer.newSignal cover !! e).
Proof.
  intros r.
  assert (Hfs : ∀ e, fuzzer2.in_fs e = true ↔
            (0xffffffff831ba096 <= e <= 0xffffffff838eeede ∨
             0xffffffff85b767b8 <= e <= 0xffffffff85b7e8d1)).
  { intros e. unfold fuzzer2.in_fs.
    rewrite orb_true_iff, !andb_true_iff, !Z.leb_le. tauto. }
  split.
  - intros e He. subst r. rewrite addRawMaxSignal2_state in He. simpl in He.
    apply DiffRaw_is_Some in He as [He _].
    apply elem_of_filterFsSignal2 in He as [He Hin].
    split; [done | by apply Hfs].
  - intros e He. subst r. rewrite addRawMaxSignal2_state. simpl.
    assert (Hd : DiffRaw (fuzzer.maxSignal cover)
                   (fuzzer2.filterFsSignal signal) prio !! e = None).
    { rewrite lookup_DiffRaw, decide_False; [done |].
      intros [Hin _]. apply elem_of_filterFsSignal2 in Hin as [_ Hin].
      by apply Hfs in Hin. }
    rewrite !lookup_Merge, Hd.
    by destruct (fuzzer.maxSignal cover !! e), (fuzzer.newSignal cover !! e).
Qed.

Lemma addRawMaxSignal2_scope_witness :
  let r := fuzzer2.addRawMaxSignal fuzzer.newCover
             [fuzzer.fs_lo; 0xffffffff85b767b8] 1 in
  fuzzer.maxSignal r.1 !! fuzzer.fs_lo = None ∧
  0xffffffff85b767b8 ∈ [fuzzer.fs_lo; 0xffffffff85b767b8].
Proof.
  intros r.
  pose proof (addRawMaxSignal2_scope fuzzer.newCover
                [fuzzer.fs_lo; 0xffffffff85b767b8] 1) as (H1 & H2).
  split.
  - apply H2. vm_compute. intros [[H _]|[H _]]; by apply H.
  - apply H1. vm_compute. eauto.
Defined.

End cover2_facts.

(** * Further properties of the scheduler *)

Section index_more.
Import corpus.

Lemma increasing_to_nil : increasing_to 0 [].
Proof. split; intros *; by rewrite lookup_nil. Qed.

Lemma increasing_to_snoc sum acc w :
  increasing_to sum acc → 0 <= sum → 1 <= w →
  increasing_to (sum + w) (acc ++ [sum + w]).
Proof.
  intros [Hr Hi] Hsum Hw. split.
  - intros i x Hx. apply lookup_app_Some in Hx as [Hx|[_ Hx]].
    + specialize (Hr i x Hx). lia.
    + apply list_lookup_singleton_Some in Hx as [_ <-]. lia.
  - intros i j x y Hx Hy Hij.
    apply lookup_app_Some in Hx as [Hx|[Hlen Hx]];
      apply lookup_app_Some in Hy as [Hy|[Hlen' Hy]].
    + by apply (Hi i j).
    + apply list_lookup_singleton_Some in Hy as [_ <-].
      specialize (Hr i x Hx). lia.
    + apply lookup_lt_Some in Hy. lia.
    + apply list_lookup_singleton_Some in Hx as [Hx _].
      apply list_lookup_singleton_Some in Hy as [Hy _]. lia.
Qed.

(** The index the binary search of [ChooseProgram] ends on, in terms of
    the entries of [accPrios]: it is [k] exactly for the draws above the
    entry before [k] and up to the entry at [k]. *)
Lemma Search_interval n sum acc r k hi :
  cumulative_index n sum acc → acc !! k = Some hi → r <= sum →
  (gosort.Search (length acc) (fun i => r <=? nth i acc 0) = k ↔
   r <= hi ∧ ∀ j lo, (j < k)%nat → acc !! j = Some lo → lo < r).
Proof.
  intros Hci Hk Hr.
  assert (Hn : n ≠ 0%nat).
  { destruct Hci as (<- & _). apply lookup_lt_Some in Hk. lia. }
  destruct (Search_cumulative n sum acc r Hci Hn Hr)
    as (Hlt & (x & Hx & Hrx) & Hbefore).
  set (idx := gosort.Search (length acc) (fun i => r <=? nth i acc 0)) in *.
  split.
  - intros <-. rewrite Hk in Hx. injection Hx as <-. split; [done |].
    intros j lo Hj Hlo. by apply (Hbefore j).
  - intros [Hhi Hlo].
    destruct (lt_eq_lt_dec idx k) as [[Hlt'|Heq]|Hgt]; [|done|].
    + specialize (Hlo idx x Hlt' Hx). lia.
    + specialize (Hbefore k hi Hgt Hk). lia.
Qed.

End index_more.

Section rev1_more.
Import signal corpus corpus.Rev1.

Lemma built_increasing1 t pl :
  built t pl → t <= int64.max_int →
  increasing_to (sumPrios pl) (accPrios pl).
Proof.
  intros Hb. built_induction Hb; intros Hmax.
  - apply increasing_to_nil.
  - pose proof (weight_pos1 signal) as Hpos.
    pose proof (built_nonneg1 _ _ Hb) as Ht.
    destruct (built_index1 _ _ Hb ltac:(lia)) as (Hsum & _ & _).
    destruct (built_index1 _ _ (built_save _ _ p signal Hb) Hmax)
      as (Hsum' & _ & _).
    change (accPrios (saveProgram pl p signal))
      with (accPrios pl ++ [sumPrios (saveProgram pl p signal)]).
    rewrite Hsum', <- Hsum.
    apply increasing_to_snoc; [apply IH; lia | lia | lia].
  - simpl. by apply IH2.
Qed.

Lemma admit_all_snoc1 pl calls p signal :
  admit_all pl (calls ++ [(p, signal)])
  = saveProgram (admit_all pl calls) p signal.
Proof. unfold admit_all. by rewrite foldl_app. Qed.

Lemma total_weight_snoc1 calls p signal :
  total_weight (calls ++ [(p, signal)]) = total_weight calls + weight signal.
Proof.
  unfold total_weight.
  induction calls as [|c calls IH]; cbn [foldr app snd]; [lia |].
  rewrite IH. lia.
Qed.

Lemma total_weight_nonneg1 calls : 0 <= total_weight calls.
Proof.
  unfold total_weight. induction calls as [|c calls IH]; cbn [foldr]; [done |].
  pose proof (weight_pos1 c.2). lia.
Qed.

Lemma admit_all_progs1 calls : ∀ pl,
  progs (admit_all pl calls) = progs pl ++ calls.*1.
Proof.
  induction calls as [|[p signal] calls IH]; intros pl; simpl.
  - by rewrite app_nil_r.
  - rewrite IH. simpl. by rewrite <- app_assoc.
Qed.

Lemma admit_all_acc1 calls :
  total_weight calls <= int64.max_int →
  ∀ k, (k < length calls)%nat →
  accPrios (admit_all empty calls) !! k
  = Some (total_weight (take (S k) calls)).
Proof.
  induction calls as [|[p signal] calls IH] using rev_ind; intros Hfit k Hk.
  - simpl in Hk. lia.
  - rewrite total_weight_snoc1 in Hfit. pose proof (weight_pos1 signal).
    pose proof (total_weight_nonneg1 calls).
    rewrite length_app in Hk. simpl in Hk.
    rewrite admit_all_snoc1.
    change (accPrios (saveProgram (admit_all empty calls) p signal))
      with (accPrios (admit_all empty calls)
            ++ [sumPrios (saveProgram (admit_all empty calls) p signal)]).
    pose proof (admit_all_built1 calls 0 empty built_empty) as Hb.
    rewrite Z.add_0_l in Hb.
    destruct (built_index1 _ _ Hb ltac:(lia)) as (_ & (Hlen & _) & _).
    rewrite admit_all_progs1 in Hlen. simpl in Hlen.
    rewrite length_fmap in Hlen.
    destruct (decide (k = length calls)) as [->|Hne].
    + rewrite lookup_app_r by lia. rewrite Hlen, Nat.sub_diag. simpl.
      rewrite firstn_all2 by (rewrite length_app; simpl; lia).
      change (int64.add (sumPrios (admit_all empty calls)) (prio_of signal))
        with (sumPrios (saveProgram (admit_all empty calls) p signal)).
      destruct (built_index1 _ _ (built_save _ _ p signal Hb)
                  ltac:(lia)) as (-> & _).
      by rewrite total_weight_snoc1.
    + rewrite lookup_app_l by lia.
      rewrite take_app_le by lia. apply IH; lia.
Qed.

End rev1_more.

Section rev2_more.
Import signal corpus corpus.Rev2.

Lemma built_increasing2 t pl :
  built t pl → t <= int64.max_int →
  increasing_to (sumPrios pl) (accPrios pl).
Proof.
  intros Hb. built_induction Hb; intros Hmax.
  - apply increasing_to_nil.
  - pose proof (weight_pos2 signal) as Hpos.
    pose proof (built_nonneg2 _ _ Hb) as Ht.
    destruct (built_index2 _ _ Hb ltac:(lia)) as (Hsum & _ & _).
    destruct (built_index2 _ _ (built_save _ _ p signal Hb) Hmax)
      as (Hsum' & _ & _).
    change (accPrios (saveProgram pl p signal))
      with (accPrios pl ++ [sumPrios (saveProgram pl p signal)]).
    rewrite Hsum', <- Hsum.
    apply increasing_to_snoc; [apply IH; lia | lia | lia].
  - simpl. by apply IH2.
Qed.

Lemma admit_all_snoc2 pl calls p signal :
  admit_all pl (calls ++ [(p, signal)])
  = saveProgram (admit_all pl calls) p signal.
Proof. unfold admit_all. by rewrite foldl_app. Qed.

Lemma total_weight_snoc2 calls p signal :
  total_weight (calls ++ [(p, signal)]) = total_weight calls + weight signal.
Proof.
  unfold total_weight.
  induction calls as [|c calls IH]; cbn [foldr app snd]; [lia |].
  rewrite IH. lia.
Qed.

Lemma total_weight_nonneg2 calls : 0 <= total_weight calls.
Proof.
  unfold total_weight. induction calls as [|c calls IH]; cbn [foldr]; [done |].
  pose proof (weight_pos2 c.2). lia.
Qed.

Lemma admit_all_progs2 calls : ∀ pl,
  progs (admit_all pl calls) = progs pl ++ calls.*1.
Proof.
  induction calls as [|[p signal] calls IH]; intros pl; simpl.
  - by rewrite app_nil_r.
  - rewrite IH. simpl. by rewrite <- app_assoc.
Qed.

Lemma admit_all_acc2 calls :
  total_weight calls <= int64.max_int →
  ∀ k, (k < length calls)%nat →
  accPrios (admit_all empty calls) !! k
  = Some (total_weight (take (S k) calls)).
Proof.
  induction calls as [|[p signal] calls IH] using rev_ind; intros Hfit k Hk.
  - simpl in Hk. lia.
  - rewrite total_weight_snoc2 in Hfit. pose proof (weight_pos2 signal).
    pose proof (total_weight_nonneg2 calls).
    rewrite length_app in Hk. simpl in Hk.
    rewrite admit_all_snoc2.
    change (accPrios (saveProgram (admit_all empty calls) p signal))
      with (accPrios (admit_all empty calls)
            ++ [sumPrios (saveProgram (admit_all empty calls) p signal)]).
    pose proof (admit_all_built2 calls 0 empty built_empty) as Hb.
    rewrite Z.add_0_l in Hb.
    destruct (built_index2 _ _ Hb ltac:(lia)) as (_ & (Hlen & _) & _).
    rewrite admit_all_progs2 in Hlen. simpl in Hlen.
    rewrite length_fmap in Hlen.
    destruct (decide (k = length calls)) as [->|Hne].
    + rewrite lookup_app_r by lia. rewrite Hlen, Nat.sub_diag. simpl.
      rewrite firstn_all2 by (rewrite length_app; simpl; lia).
      change (int64.add (sumPrios (admit_all empty calls)) (prio_of signal))
        with (sumPrios (saveProgram (admit_all empty calls) p signal)).
      destruct (built_index2 _ _ (built_save _ _ p signal Hb)
                  ltac:(lia)) as (-> & _).
      by rewrite total_weight_snoc2.
    + rewrite lookup_app_l by lia.
      rewrite take_app_le by lia. apply IH; lia.
Qed.


Lemma admit_all_ioUringProgs2 calls : ∀ pl,
  ioUringProgs (admit_all pl calls)
  = ioUringProgs pl
    ++ (filter (fun call => io_uring_flag call.2 = true) calls).*1.
Proof.
  induction calls as [|[p signal] calls IH]; intros pl; simpl.
  - by rewrite app_nil_r.
  - rewrite IH. simpl. rewrite filter_cons. simpl.
    destruct (io_uring_flag signal) eqn:Hf.
    + rewrite decide_True by done. simpl. by rewrite <- app_assoc.
    + rewrite decide_False by done. done.
Qed.

End rev2_more.

Section scheduler_more.
Import signal corpus.

Lemma at_index_Some (l : list Prog) i p :
  at_index l i = Return (Some p) ↔ l !! i = Some p.
Proof.
  unfold at_index. destruct (l !! i) as [q|]; split; intros H;
    try discriminate H; by simplify_eq.
Qed.

(** [Programs] returns the admitted programs in the order of admission:
    a run of [saveProgram] calls appends its programs, one per call. *)
Theorem Programs_admission_order (calls : list (Prog * gmap Z Z)) :
  (∀ pl, Rev2.Programs (Rev2.admit_all pl calls)
         = Rev2.Programs pl ++ calls.*1) ∧
  (∀ pl, Rev1.Programs (Rev1.admit_all pl calls)
         = Rev1.Programs pl ++ calls.*1).
Proof.
  split; intros pl; [apply admit_all_progs2 | apply admit_all_progs1].
Qed.

(** After a run of [saveProgram] calls from the empty scheduler the
    protected subset holds, in the order of admission, the programs whose
    signal has an event in the io_uring range, and no other; so it is a
    sublist of what [Programs] returns. *)
Theorem ioUringProgs_admitted (calls : list (Prog * gmap Z Z)) :
  let pl := Rev2.admit_all Rev2.empty calls in
  Rev2.ioUringProgs pl
  = (filter (fun call => io_uring_flag call.2 = true) calls).*1 ∧
  Rev2.ioUringProgs pl `sublist_of` Rev2.Programs pl ∧
  (∀ p, p ∈ Rev2.ioUringProgs pl →
        ∃ signal cover, (p, signal) ∈ calls ∧
                        is_Some (signal !! cover) ∧ in_io_uring cover = true).
Proof.
  intros pl.
  assert (Hio : Rev2.ioUringProgs pl
            = (filter (fun call => io_uring_flag call.2 = true) calls).*1)
    by (unfold pl; by rewrite admit_all_ioUringProgs2).
  split; [done |]. split.
  - rewrite Hio. unfold pl, Rev2.Programs. rewrite admit_all_progs2. simpl.
    apply fmap_sublist, sublist_filter.
  - intros p. rewrite Hio. intros Hp.
    apply list_elem_of_fmap in Hp as ([q signal] & -> & Hin).
    apply list_elem_of_filter in Hin as [Hflag Hin]. simpl in Hflag.
    apply io_uring_flag_true in Hflag as (cover & Hc & Hr).
    by exists signal, cover.
Qed.

Lemma ioUringProgs_admitted_witness :
  ∃ signal cover,
    (2%positive, signal)
      ∈ [(1%positive, (∅ : gmap Z Z)); (2%positive, {[ io_uring_hi := 0 ]})] ∧
    is_Some (signal !! cover) ∧ in_io_uring cover = true.
Proof.
  pose proof (ioUringProgs_admitted
    [(1%positive, ∅); (2%positive, {[ io_uring_hi := 0 ]})]) as (_ & _ & H).
  apply H. vm_compute. by left.
Defined.

(** [accPrios] holds the running sums of the weights: after a run of
    [saveProgram] calls from the empty scheduler whose weights add up to an
    [int64], the entry for the call at [k] is the sum of the weights up to
    and with that call. *)
Theorem accPrios_prefix_sums (calls : list (Prog * gmap Z Z)) (k : nat) :
  (k < length calls)%nat →
  (Rev2.total_weight calls <= int64.max_int →
   Rev2.accPrios (Rev2.admit_all Rev2.empty calls) !! k
   = Some (Rev2.total_weight (take (S k) calls))) ∧
  (Rev1.total_weight calls <= int64.max_int →
   Rev1.accPrios (Rev1.admit_all Rev1.empty calls) !! k
   = Some (Rev1.total_weight (take (S k) calls))).
Proof.
  intros Hk. split; intros Hfit.
  - by apply admit_all_acc2.
  - by apply admit_all_acc1.
Qed.

Lemma accPrios_prefix_sums_witness :
  Rev1.accPrios (Rev1.admit_all Rev1.empty
    [(1%positive, {[ 7 := 0 ]}); (2%positive, {[ io_uring_lo := 0 ]})])
    !! 1%nat = Some 100001.
Proof.
  destruct (accPrios_prefix_sums
    [(1%positive, {[ 7 := 0 ]}); (2%positive, {[ io_uring_lo := 0 ]})] 1)
    as (_ & H); [simpl; lia |].
  apply H. vm_compute. discriminate.
Defined.

End scheduler_more.

Section choose_more.
Import signal corpus.

(** The weighted path on a state that satisfies the invariant, for a draw
    in the interval of the program at [k]. *)
Lemma weighted_path_interval (progs : list Prog) sum acc r k p hi :
  cumulative_index (length progs) sum acc →
  progs !! k = Some p → acc !! k = Some hi → r <= hi →
  (k = 0%nat ∨ ∃ lo, acc !! (k - 1)%nat = Some lo ∧ lo < r) →
  at_index progs (gosort.Search (length acc) (fun i => r <=? nth i acc 0))
  = Return (Some p).
Proof.
  intros Hci Hp Hhi Hr Hlo.
  assert (Hsum : hi <= sum).
  { destruct Hci as (Hlen & Hnd & Hlast).
    destruct (last acc) as [x|] eqn:Hl.
    - simpl in Hlast. subst x. rewrite last_lookup in Hl.
      apply (nondecreasing_lookup acc Hnd k (pred (length acc)) hi sum Hhi Hl).
      apply lookup_lt_Some in Hhi. lia.
    - apply last_None in Hl. by subst acc. }
  assert (Hk : gosort.Search (length acc) (fun i => r <=? nth i acc 0) = k).
  { apply (Search_interval _ _ _ r k hi Hci Hhi ltac:(lia)).
    split; [done |]. intros j lo Hj Hlj.
    destruct Hlo as [->|(lo' & Hlo' & Hlt)]; [lia |].
    destruct Hci as (_ & Hnd & _).
    pose proof (nondecreasing_lookup acc Hnd j (k - 1)%nat lo lo' Hlj Hlo'
                  ltac:(lia)). lia. }
  rewrite Hk. by apply at_index_Some.
Qed.

Lemma choose_interval1 pl r k p hi :
  cumulative_index (length (Rev1.progs pl)) (Rev1.sumPrios pl)
                   (Rev1.accPrios pl) →
  Rev1.sumPrios pl < int64.max_int →
  Rev1.progs pl !! k = Some p → Rev1.accPrios pl !! k = Some hi →
  0 <= r <= hi →
  (k = 0%nat ∨ ∃ lo, Rev1.accPrios pl !! (k - 1)%nat = Some lo ∧ lo < r) →
  Rev1.ChooseProgram pl r = Return (Some p).
Proof.
  intros Hci Ht Hp Hhi Hr Hlo.
  pose proof (weighted_path_interval _ (Rev1.sumPrios pl) _ r k p hi
                Hci Hp Hhi ltac:(lia) Hlo) as Hat.
  assert (Hsum : hi <= Rev1.sumPrios pl).
  { destruct Hci as (Hlen & Hnd & Hlast).
    destruct (last (Rev1.accPrios pl)) as [x|] eqn:Hl.
    - simpl in Hlast. subst x. rewrite last_lookup in Hl.
      apply (nondecreasing_lookup _ Hnd k _ hi _ Hhi Hl).
      apply lookup_lt_Some in Hhi. lia.
    - apply last_None in Hl. by rewrite Hl in Hhi. }
  assert (Hne : Rev1.progs pl ≠ []) by (intros E; by rewrite E in Hp).
  destruct (Int63n_draw (Rev1.sumPrios pl) r ltac:(lia)) as (_ & Hdraw).
  unfold Rev1.ChooseProgram.
  destruct (length (Rev1.progs pl) =? 0)%nat eqn:Hlen.
  { apply Nat.eqb_eq in Hlen. by destruct (Rev1.progs pl). }
  rewrite Hdraw. cbn [mbind result_bind]. exact Hat.
Qed.

Lemma choose_interval2 pl d k p hi :
  cumulative_index (length (Rev2.progs pl)) (Rev2.sumPrios pl)
                   (Rev2.accPrios pl) →
  Rev2.sumPrios pl < int64.max_int →
  Rev2.progs pl !! k = Some p → Rev2.accPrios pl !! k = Some hi →
  0 <= Rev2.d_randVal d <= hi →
  (k = 0%nat ∨ ∃ lo, Rev2.accPrios pl !! (k - 1)%nat = Some lo ∧
                     lo < Rev2.d_randVal d) →
  50 <= Rev2.d_coin d ∨ Rev2.ioUringProgs pl = [] →
  Rev2.ChooseProgram pl d = Return (Some p).
Proof.
  intros Hci Ht Hp Hhi Hr Hlo Hcoin.
  pose proof (weighted_path_interval _ (Rev2.sumPrios pl) _
                (Rev2.d_randVal d) k p hi Hci Hp Hhi ltac:(lia) Hlo) as Hat.
  assert (Hsum : hi <= Rev2.sumPrios pl).
  { destruct Hci as (Hlen & Hnd & Hlast).
    destruct (last (Rev2.accPrios pl)) as [x|] eqn:Hl.
    - simpl in Hlast. subst x. rewrite last_lookup in Hl.
      apply (nondecreasing_lookup _ Hnd k _ hi _ Hhi Hl).
      apply lookup_lt_Some in Hhi. lia.
    - apply last_None in Hl. by rewrite Hl in Hhi. }
  assert (Hne : Rev2.progs pl ≠ []) by (intros E; by rewrite E in Hp).
  destruct (Int63n_draw (Rev2.sumPrios pl) (Rev2.d_randVal d) ltac:(lia))
    as (_ & Hdraw).
  unfold Rev2.ChooseProgram.
  destruct (length (Rev2.progs pl) =? 0)%nat eqn:Hlen.
  { apply Nat.eqb_eq in Hlen. by destruct (Rev2.progs pl). }
  rewrite Hdraw. cbn [mbind result_bind].
  change (gorand.Intn (Rev2.d_coin d) 100)
    with (Return (A:=Z) (Rev2.d_coin d)).
  cbn [mbind result_bind].
  destruct (Rev2.d_coin d <? 50) eqn:Hc; [|done].
  destruct Hcoin as [Hge|Hio]; [apply Z.ltb_lt in Hc; lia |].
  by rewrite Hio.
Qed.

(** Which draws select which program.  On a state that satisfies the
    cumulative-index invariant, with [sumPrios] below [max_int], the
    weighted path of [ChooseProgram] returns the program at [k] for every
    draw above the cumulative value before [k] and up to the one at [k];
    for the first program the draws start at 0.  In the second revision
    this is the path taken when the coin is 50 or more or the protected
    subset is empty. *)
Theorem ChooseProgram_interval :
  (∀ pl d k p hi,
     cumulative_index (length (Rev2.progs pl)) (Rev2.sumPrios pl)
                      (Rev2.accPrios pl) →
     Rev2.sumPrios pl < int64.max_int →
     Rev2.progs pl !! k = Some p → Rev2.accPrios pl !! k = Some hi →
     0 <= Rev2.d_randVal d <= hi →
     (k = 0%nat ∨ ∃ lo, Rev2.accPrios pl !! (k - 1)%nat = Some lo ∧
                        lo < Rev2.d_randVal d) →
     50 <= Rev2.d_coin d ∨ Rev2.ioUringProgs pl = [] →
     Rev2.ChooseProgram pl d = Return (Some p)) ∧
  (∀ pl r k p hi,
     cumulative_index (length (Rev1.progs pl)) (Rev1.sumPrios pl)
                      (Rev1.accPrios pl) →
     Rev1.sumPrios pl < int64.max_int →
     Rev1.progs pl !! k = Some p → Rev1.accPrios pl !! k = Some hi →
     0 <= r <= hi →
     (k = 0%nat ∨ ∃ lo, Rev1.accPrios pl !! (k - 1)%nat = Some lo ∧ lo < r) →
     Rev1.ChooseProgram pl r = Return (Some p)).
Proof.
  split.
  - intros pl d k p hi. apply choose_interval2.
  - intros pl r k p hi. apply choose_interval1.
Qed.

(** Every admitted program can be selected: after a run of [saveProgram]
    calls from the empty scheduler whose weights add up to less than
    [max_int] there is, for each position of [progs], a draw in the range
    of the generator for which [ChooseProgram] returns the program at that
    position. *)
Theorem ChooseProgram_selectable :
  (∀ calls k p,
     Rev2.total_weight calls < int64.max_int →
     let pl := Rev2.admit_all Rev2.empty calls in
     Rev2.progs pl !! k = Some p →
     ∃ d, Rev2.draws_ok pl d ∧ Rev2.ChooseProgram pl d = Return (Some p)) ∧
  (∀ calls k p,
     Rev1.total_weight calls < int64.max_int →
     let pl := Rev1.admit_all Rev1.empty calls in
     Rev1.progs pl !! k = Some p →
     ∃ r, Rev1.draw_ok pl r ∧ Rev1.ChooseProgram pl r = Return (Some p)).
Proof.
  split.
  - intros calls k p Ht pl Hp.
    pose proof (admit_all_built2 calls 0 Rev2.empty Rev2.built_empty) as Hb.
    rewrite Z.add_0_l in Hb. fold pl in Hb.
    destruct (built_index2 _ pl Hb ltac:(lia)) as (Hsum & Hci & _).
    destruct (built_increasing2 _ pl Hb ltac:(lia)) as (Hrange & Hstrict).
    pose proof Hci as (Hlen & _).
    destruct (lookup_lt_is_Some_2 (Rev2.accPrios pl) k) as [hi Hhi].
    { rewrite Hlen. by apply lookup_lt_Some in Hp. }
    pose proof (Hrange k hi Hhi) as Hhr.
    pose proof (built_nonneg2 _ _ Hb) as Hnn.
    destruct (Int63n_draw (Rev2.sumPrios pl) 0 ltac:(lia)) as (Hadd & _).
    exists (Rev2.mkDraws hi 50 0). split.
    + split; [|split].
      * intros _. simpl. rewrite Hadd. lia.
      * simpl. lia.
      * simpl. intros Hio. destruct (Rev2.ioUringProgs pl); [done |].
        simpl. lia.
    + apply (choose_interval2 pl _ k p hi); simpl; auto; try lia.
      destruct k as [|k]; [by left | right].
      destruct (lookup_lt_is_Some_2 (Rev2.accPrios pl) k) as [lo Hlo].
      { apply lookup_lt_Some in Hhi. lia. }
      exists lo. simpl. rewrite Nat.sub_0_r. split; [done |].
      apply (Hstrict k (S k)); auto.
  - intros calls k p Ht pl Hp.
    pose proof (admit_all_built1 calls 0 Rev1.empty Rev1.built_empty) as Hb.
    rewrite Z.add_0_l in Hb. fold pl in Hb.
    destruct (built_index1 _ pl Hb ltac:(lia)) as (Hsum & Hci & _).
    destruct (built_increasing1 _ pl Hb ltac:(lia)) as (Hrange & Hstrict).
    pose proof Hci as (Hlen & _).
    destruct (lookup_lt_is_Some_2 (Rev1.accPrios pl) k) as [hi Hhi].
    { rewrite Hlen. by apply lookup_lt_Some in Hp. }
    pose proof (Hrange k hi Hhi) as Hhr.
    pose proof (built_nonneg1 _ _ Hb) as Hnn.
    destruct (Int63n_draw (Rev1.sumPrios pl) 0 ltac:(lia)) as (Hadd & _).
    exists hi. split.
    + intros _. rewrite Hadd. lia.
    + apply (choose_interval1 pl _ k p hi); auto; try lia.
      destruct k as [|k]; [by left | right].
      destruct (lookup_lt_is_Some_2 (Rev1.accPrios pl) k) as [lo Hlo].
      { apply lookup_lt_Some in Hhi. lia. }
      exists lo. simpl. rewrite Nat.sub_0_r. split; [done |].
      apply (Hstrict k (S k)); auto.
Qed.

End choose_more.

Section choose_more_witnesses.
Import signal corpus.

Lemma ChooseProgram_interval_witness :
  let pl := Rev1.saveProgram
              (Rev1.saveProgram Rev1.empty 1%positive {[ 1 := 0; 2 := 0 ]})
              2%positive ∅ in
  Rev1.ChooseProgram pl 0 = Return (Some 1%positive) ∧
  Rev1.ChooseProgram pl 3 = Return (Some 2%positive).
Proof.
  intros pl. destruct ChooseProgram_interval as (_ & H).
  assert (Hci : cumulative_index (length (Rev1.progs pl)) (Rev1.sumPrios pl)
                  (Rev1.accPrios pl)) by (vm_compute; auto).
  assert (Ht : Rev1.sumPrios pl < int64.max_int) by (vm_compute; reflexivity).
  split.
  - apply (H pl 0 0%nat 1%positive 2 Hci Ht); [done | done | lia | by left].
  - apply (H pl 3 1%nat 2%positive 3 Hci Ht); [done | done | lia |].
    right. exists 2. split; [done | lia].
Defined.

Lemma ChooseProgram_selectable_witness :
  let pl := Rev2.admit_all Rev2.empty
              [(1%positive, {[ 1 := 0; 2 := 0 ]}); (2%positive, ∅)] in
  ∃ d, Rev2.draws_ok pl d ∧ Rev2.ChooseProgram pl d = Return (Some 2%positive).
Proof.
  intros pl. destruct ChooseProgram_selectable as (H & _).
  apply (H [(1%positive, {[ 1 := 0; 2 := 0 ]}); (2%positive, ∅)]
           1%nat 2%positive).
  - vm_compute. reflexivity.
  - reflexivity.
Defined.

End choose_more_witnesses.

Section revisions.
Import signal corpus.

(** The second revision does what the first does wherever the protected
    subset plays no part: [ChooseProgram] returns the same when the
    protected subset is empty or the coin is 50 or more; [saveProgram]
    changes [progs], [sumPrios] and [accPrios] the same, and leaves the
    protected subset alone, for a signal with no event in the io_uring
    range; [replace] changes the three fields the same. *)
Theorem second_revision_as_first :
  (∀ pl d,
     Rev2.ioUringProgs pl = [] ∨ 50 <= Rev2.d_coin d →
     Rev2.ChooseProgram pl d
     = Rev1.ChooseProgram (forget_protected pl) (Rev2.d_randVal d)) ∧
  (∀ pl p signal,
     io_uring_flag signal = false →
     forget_protected (Rev2.saveProgram pl p signal)
     = Rev1.saveProgram (forget_protected pl) p signal ∧
     Rev2.ioUringProgs (Rev2.saveProgram pl p signal)
     = Rev2.ioUringProgs pl) ∧
  (∀ pl other,
     forget_protected (Rev2.replace pl other)
     = Rev1.replace (forget_protected pl) (forget_protected other)).
Proof.
  split; [|split].
  - intros pl d Hpath. unfold Rev2.ChooseProgram, Rev1.ChooseProgram.
    cbn [forget_protected Rev1.progs Rev1.sumPrios Rev1.accPrios].
    destruct (length (Rev2.progs pl) =? 0)%nat; [done |].
    destruct (gorand.Int63n (Rev2.d_randVal d)
                (int64.add (Rev2.sumPrios pl) 1)) as [|randVal]; [done |].
    cbn [mbind result_bind].
    change (gorand.Intn (Rev2.d_coin d) 100)
      with (Return (A:=Z) (Rev2.d_coin d)).
    cbn [mbind result_bind].
    destruct (Rev2.d_coin d <? 50) eqn:Hc; [|done].
    destruct Hpath as [Hio|Hge]; [by rewrite Hio |].
    apply Z.ltb_lt in Hc. lia.
  - intros pl p signal Hflag.
    unfold Rev2.saveProgram, Rev1.saveProgram, forget_protected,
      Rev1.prio_of, Rev2.prio_of.
    rewrite Hflag. by simpl.
  - intros pl other. reflexivity.
Qed.

Lemma second_revision_as_first_witness :
  let pl := Rev2.saveProgram Rev2.empty 1%positive {[ 1 := 0 ]} in
  Rev2.ChooseProgram pl (Rev2.mkDraws 1 10 0)
  = Rev1.ChooseProgram (forget_protected pl) 1 ∧
  forget_protected pl = Rev1.saveProgram Rev1.empty 1%positive {[ 1 := 0 ]}.
Proof.
  intros pl. destruct second_revision_as_first as (H1 & H2 & _).
  split.
  - apply H1. left. reflexivity.
  - apply (H2 Rev2.empty). vm_compute. reflexivity.
Defined.

(** [ChooseProgram] returns admitted programs only: whatever the state and
    the draws, a program it returns is in the main list or in the
    protected subset; after a run of [saveProgram] calls from the empty
    scheduler it is one of the programs of those calls. *)
Theorem ChooseProgram_returns_admitted :
  (∀ pl d p, Rev2.ChooseProgram pl d = Return (Some p) →
             p ∈ Rev2.progs pl ∨ p ∈ Rev2.ioUringProgs pl) ∧
  (∀ calls d p,
     Rev2.ChooseProgram (Rev2.admit_all Rev2.empty calls) d
     = Return (Some p) → p ∈ calls.*1) ∧
  (∀ pl r p, Rev1.ChooseProgram pl r = Return (Some p) → p ∈ Rev1.progs pl).
Proof.
  assert (H2 : ∀ pl d p, Rev2.ChooseProgram pl d = Return (Some p) →
             p ∈ Rev2.progs pl ∨ p ∈ Rev2.ioUringProgs pl).
  { intros pl d p. unfold Rev2.ChooseProgram.
    destruct (length (Rev2.progs pl) =? 0)%nat; [done |].
    destruct (gorand.Int63n _ _) as [|randVal]; [done |].
    cbn [mbind result_bind].
    change (gorand.Intn (Rev2.d_coin d) 100)
      with (Return (A:=Z) (Rev2.d_coin d)).
    cbn [mbind result_bind].
    destruct (Rev2.d_coin d <? 50).
    - destruct (length (Rev2.ioUringProgs pl) =? 0)%nat.
      + intros H%at_index_Some. left. by eapply list_elem_of_lookup_2.
      + destruct (gorand.Intn _ _) as [|pick]; [done |].
        cbn [mbind result_bind]. intros H%at_index_Some.
        right. by eapply list_elem_of_lookup_2.
    - intros H%at_index_Some. left. by eapply list_elem_of_lookup_2. }
  split; [done |]. split.
  - intros calls d p Hres. destruct (H2 _ _ _ Hres) as [Hin|Hin].
    + by rewrite admit_all_progs2 in Hin.
    + rewrite admit_all_ioUringProgs2 in Hin. simpl in Hin.
      apply list_elem_of_fmap in Hin as (c & -> & Hc).
      apply list_elem_of_filter in Hc as [_ Hc].
      by apply list_elem_of_fmap_2.
  - intros pl r p. unfold Rev1.ChooseProgram.
    destruct (length (Rev1.progs pl) =? 0)%nat; [done |].
    destruct (gorand.Int63n _ _) as [|randVal]; [done |].
    cbn [mbind result_bind]. intros H%at_index_Some.
    by eapply list_elem_of_lookup_2.
Qed.

Lemma ChooseProgram_returns_admitted_witness :
  (2%positive : Prog) ∈ [1%positive; 2%positive].
Proof.
  destruct ChooseProgram_returns_admitted as (_ & H & _).
  apply (H [(1%positive, {[ 1 := 0 ]}); (2%positive, {[ io_uring_lo := 0 ]})]
           (Rev2.mkDraws 0 0 0) 2%positive).
  vm_compute. reflexivity.
Defined.

End revisions.

Section replace_more.
Import signal corpus.

(** After [replace] the protected path still serves the programs that were
    protected before it: when the coin is below 50, [ChooseProgram] on the
    replaced state returns the program at the pick in the protected subset
    of the state that was overwritten.  Such a program need not be in the
    new main list. *)
Theorem replace_serves_old_protected :
  (∀ t pl t' other d,
     Rev2.built t pl → Rev2.built t' other → t' < int64.max_int →
     Rev2.progs other ≠ [] → Rev2.ioUringProgs pl ≠ [] →
     Rev2.draws_ok (Rev2.replace pl other) d → Rev2.d_coin d < 50 →
     ∃ p, Rev2.ioUringProgs pl !! Z.to_nat (Rev2.d_pick d) = Some p ∧
          Rev2.ChooseProgram (Rev2.replace pl other) d = Return (Some p)) ∧
  (∃ t pl d p, Rev2.built t pl ∧ t < int64.max_int ∧ Rev2.draws_ok pl d ∧
               Rev2.ChooseProgram pl d = Return (Some p) ∧
               p ∉ Rev2.Programs pl).
Proof.
  split.
  - intros t pl t' other d Hb Hb' Ht' Hne Hio Hd Hcoin.
    pose proof (Rev2.built_replace t pl t' other Hb Hb') as Hbr.
    destruct (built_index2 _ _ Hbr ltac:(lia)) as (Hsum & Hci & Hpos).
    specialize (Hpos Hne).
    destruct (ChooseProgram_cases (Rev2.replace pl other) d Hci Hne
                ltac:(lia) Hd) as (p & Hres & _ & _ & Hp).
    rewrite decide_True in Hp by done. by exists p.
  - exists (0 + Rev2.weight ∅),
      (Rev2.replace
         (Rev2.saveProgram Rev2.empty 3%positive {[ io_uring_lo := 0 ]})
         (Rev2.saveProgram Rev2.empty 1%positive ∅)),
      (Rev2.mkDraws 1 49 0), 3%positive.
    split; [|split; [by vm_compute |split; [|split]]].
    + apply (Rev2.built_replace (0 + Rev2.weight {[ io_uring_lo := 0 ]}));
        apply Rev2.built_save, Rev2.built_empty.
    + split; [|split; [done |]]; intros _; vm_compute;
        (split; [discriminate | reflexivity]).
    + vm_compute. reflexivity.
    + unfold Rev2.Programs. simpl. intros H.
      apply list_elem_of_singleton in H. discriminate H.
Qed.

Lemma replace_serves_old_protected_witness :
  let pl := Rev2.saveProgram Rev2.empty 3%positive {[ io_uring_lo := 0 ]} in
  let other := Rev2.saveProgram Rev2.empty 1%positive ∅ in
  ∃ p, Rev2.ioUringProgs pl !! Z.to_nat 0 = Some p ∧
       Rev2.ChooseProgram (Rev2.replace pl other) (Rev2.mkDraws 1 49 0)
       = Return (Some p).
Proof.
  intros pl other. destruct replace_serves_old_protected as (H & _).
  assert (Hb : Rev2.built (0 + Rev2.weight {[ io_uring_lo := 0 ]}) pl)
    by apply Rev2.built_save, Rev2.built_empty.
  assert (Hb' : Rev2.built (0 + Rev2.weight ∅) other)
    by apply Rev2.built_save, Rev2.built_empty.
  assert (Ht : 0 + Rev2.weight ∅ < int64.max_int) by (vm_compute; reflexivity).
  assert (Hd : Rev2.draws_ok (Rev2.replace pl other) (Rev2.mkDraws 1 49 0)).
  { split; [|split; [done |]]; intros _; vm_compute;
      (split; [discriminate | reflexivity]). }
  apply (H _ pl _ other (Rev2.mkDraws 1 49 0) Hb Hb' Ht).
  - vm_compute. discriminate.
  - vm_compute. discriminate.
  - exact Hd.
  - simpl. lia.
Defined.

(** [ChooseProgram] needs room for [sumPrios + 1]: with a non-empty main
    list it panics, in [Int63n], when [sumPrios] is [max_int] (the sum
    wraps to [min_int]) or negative. *)
Theorem ChooseProgram_panics_without_room :
  (∀ pl d,
     Rev2.progs pl ≠ [] → int64.in_range (Rev2.sumPrios pl) →
     Rev2.sumPrios pl = int64.max_int ∨ Rev2.sumPrios pl < 0 →
     Rev2.ChooseProgram pl d = Panic) ∧
  (∀ pl r,
     Rev1.progs pl ≠ [] → int64.in_range (Rev1.sumPrios pl) →
     Rev1.sumPrios pl = int64.max_int ∨ Rev1.sumPrios pl < 0 →
     Rev1.ChooseProgram pl r = Panic).
Proof.
  assert (Hadd : ∀ sum, int64.in_range sum →
            sum = int64.max_int ∨ sum < 0 → (int64.add sum 1 <=? 0) = true).
  { intros sum Hr [->|Hneg]; [by vm_compute |].
    rewrite add_exact; [apply Z.leb_le; lia |].
    unfold int64.in_range in *. rewrite min_int_value, max_int_value in *.
    lia. }
  split.
  - intros pl d Hne Hr Hsum. unfold Rev2.ChooseProgram.
    destruct (length (Rev2.progs pl) =? 0)%nat eqn:Hlen.
    { apply Nat.eqb_eq in Hlen. by destruct (Rev2.progs pl). }
    unfold gorand.Int63n. by rewrite (Hadd _ Hr Hsum).
  - intros pl r Hne Hr Hsum. unfold Rev1.ChooseProgram.
    destruct (length (Rev1.progs pl) =? 0)%nat eqn:Hlen.
    { apply Nat.eqb_eq in Hlen. by destruct (Rev1.progs pl). }
    unfold gorand.Int63n. by rewrite (Hadd _ Hr Hsum).
Qed.

Lemma ChooseProgram_panics_without_room_witness :
  Rev1.ChooseProgram
    (Rev1.mkProgramsList [1%positive] int64.max_int [int64.max_int]) 5
  = Panic.
Proof.
  destruct ChooseProgram_panics_without_room as (_ & H).
  apply H.
  - discriminate.
  - vm_compute. split; discriminate.
  - left. reflexivity.
Defined.

End replace_more.

(** * The declaration extractor *)

(** ** Strings *)

Section string_facts.
Import gostrings.
Implicit Types (s p r old new : string) (c : ascii).

Lemma drop_append p r : drop (String.length p) (p +:+ r) = r.
Proof. induction p as [|c p IH]; simpl; [by destruct r | done]. Qed.

Lemma prefix_append p r : String.prefix p (p +:+ r) = true.
Proof.
  induction p as [|c p IH]; simpl; [by destruct r |].
  destruct (ascii_dec c c); [done | congruence].
Qed.

Lemma Replace1_unfold s old new :
  Replace1 s old new =
  if String.prefix old s then new +:+ drop (String.length old) s
  else match s with
       | EmptyString => EmptyString
       | String c rest => String c (Replace1 rest old new)
       end.
Proof. by destruct s. Qed.

(** Replacing a prefix: the leftmost match is the one at the start. *)
Lemma Replace1_prefix p r new : Replace1 (p +:+ r) p new = new +:+ r.
Proof. by rewrite Replace1_unfold, prefix_append, drop_append. Qed.

(** [s] is its head followed by the rest; the head has no [c], and the
    rest is empty or starts with [c]. *)
Lemma SplitHead_append s c :
  s = SplitHead s c +:+ drop (String.length (SplitHead s c)) s.
Proof.
  induction s as [|a s IH]; simpl; [done |].
  destruct (Ascii.eqb a c); simpl; [done |].
  change (String a s
          = String a (SplitHead s c +:+ drop (String.length (SplitHead s c)) s)).
  by f_equal.
Qed.

Lemma SplitHead_rest s c :
  drop (String.length (SplitHead s c)) s = EmptyString ∨
  ∃ r, drop (String.length (SplitHead s c)) s = String c r.
Proof.
  induction s as [|a s IH]; simpl; [by left |].
  destruct (Ascii.eqb a c) eqn:E; simpl; [|done].
  apply Ascii.eqb_eq in E as ->. right. by exists s.
Qed.

Lemma SplitHead_stop p c r : 
  SplitHead p c = p → SplitHead (p +:+ String c r) c = p.
Proof.
  induction p as [|a p IH]; simpl.
  - by rewrite Ascii.eqb_refl.
  - destruct (Ascii.eqb a c); [done |]. intros [= H]. by rewrite IH.
Qed.

Lemma SplitHead_idemp s c : SplitHead (SplitHead s c) c = SplitHead s c.
Proof.
  induction s as [|a s IH]; simpl; [done |].
  destruct (Ascii.eqb a c) eqn:E; simpl; [done |]. by rewrite E, IH.
Qed.

Lemma append_length p r :
  String.length (p +:+ r) = (String.length p + String.length r)%nat.
Proof. induction p as [|c p IH]; simpl; [done | by rewrite IH]. Qed.

Lemma append_inj_l p1 p2 r : p1 +:+ r = p2 +:+ r → p1 = p2.
Proof.
  revert p2. induction p1 as [|c p1 IH]; intros [|c2 p2] H.
  - done.
  - apply (f_equal String.length) in H.
    rewrite !append_length in H. simpl in H. lia.
  - apply (f_equal String.length) in H.
    rewrite !append_length in H. simpl in H. lia.
  - change (String c (p1 +:+ r) = String c2 (p2 +:+ r)) in H.
    injection H as -> H. by rewrite (IH p2 H).
Qed.

(** The order of Go strings is a total order. *)
Lemma le_iff a b : le a b ↔ OrderedTypeEx.String_as_OT.lt a b ∨ a = b.
Proof.
  unfold le, String.leb.
  rewrite <- OrderedTypeEx.String_as_OT.cmp_lt,
          <- OrderedTypeEx.String_as_OT.cmp_eq.
  unfold OrderedTypeEx.String_as_OT.cmp.
  destruct (String.compare a b); split; intros H; auto;
    try discriminate H; destruct H as [H|H]; discriminate H.
Qed.

#[local] Instance le_refl : Reflexive le.
Proof. intros a. apply le_iff. by right. Qed.

#[local] Instance le_trans : Transitive le.
Proof.
  intros a b c. rewrite !le_iff. intros [H1| ->] [H2| ->]; auto.
  left. by apply (OrderedTypeEx.String_as_OT.lt_trans a b c).
Qed.

#[local] Instance le_total : Total le.
Proof. intros a b. apply String.leb_total. Qed.

#[local] Instance le_antisym : AntiSymm (=) le.
Proof. intros a b. apply String.leb_antisym. Qed.

Lemma Sort_sorted (l : list string) :
  StronglySorted le (goslices.Sort l) ∧ goslices.Sort l ≡ₚ l.
Proof.
  split; [apply StronglySorted_merge_sort; apply _ |].
  apply merge_sort_Permutation.
Qed.

End string_facts.

(** ** renameSyscall *)

Section rename_facts.
Import gostrings declextract.
Implicit Types (desc name line : string) (names : list string).

Lemma isProhibited_false name :
  isProhibited name = false ↔ name ≠ "reboot" ∧ name ≠ "utimesat".
Proof.
  unfold isProhibited.
  destruct (String.eqb_spec name "reboot") as [->|H1]; [intuition congruence |].
  destruct (String.eqb_spec name "utimesat") as [->|H2];
    intuition congruence.
Qed.

Lemma renameSyscall_loop desc names : ∀ renamed,
  foldl (fun renamed name =>
           if isProhibited name then renamed
           else renamed ++ [Replace1 desc (SplitHead desc "$") name])
        renamed names
  = renamed
    ++ ((fun name =>
           name +:+ drop (String.length (SplitHead desc "$")) desc)
        <$> filter (fun name => isProhibited name = false) names).
Proof.
  induction names as [|name names IH]; intros renamed; simpl.
  - by rewrite app_nil_r.
  - rewrite IH, filter_cons. destruct (isProhibited name) eqn:Hp.
    + by rewrite decide_False by done.
    + rewrite decide_True by done. rewrite <- app_assoc. simpl.
      do 3 f_equal. rewrite (SplitHead_append desc "$") at 1.
      apply Replace1_prefix.
Qed.

Lemma renameSyscall_Some desc (rename : gmap string (list string)) names :
  rename !! SplitHead desc "$" = Some names →
  renameSyscall desc rename
  = (fun name => name +:+ drop (String.length (SplitHead desc "$")) desc)
    <$> filter (fun name => isProhibited name = false) names.
Proof.
  intros Hn. unfold renameSyscall. rewrite Hn.
  by rewrite renameSyscall_loop.
Qed.

(** What [renameSyscall] returns.  Let [call] be the part of [desc] before
    the first ["$"] and [rest] what follows it in [desc].  Without a record
    for [call] nothing is returned.  With one, there is a line for each
    recorded name that is not prohibited, in the order of the record: the
    name followed by [rest].  So no line is for [reboot] or [utimesat]
    followed by [rest], and the variant and the arguments of [desc] are
    kept. *)
Theorem renameSyscall_lines desc (rename : gmap string (list string)) :
  let call := SplitHead desc "$" in
  let rest := drop (String.length call) desc in
  desc = call +:+ rest ∧
  (rename !! call = None → renameSyscall desc rename = []) ∧
  (∀ names, rename !! call = Some names →
     renameSyscall desc rename
     = (fun name => name +:+ rest)
       <$> filter (fun name => isProhibited name = false) names) ∧
  (∀ line, line ∈ renameSyscall desc rename →
     ∃ names name, rename !! call = Some names ∧ name ∈ names ∧
                   line = name +:+ rest ∧
                   name ≠ "reboot" ∧ name ≠ "utimesat").
Proof.
  intros call rest. split; [apply SplitHead_append |]. split; [|split].
  - intros Hn. unfold renameSyscall. fold call. by rewrite Hn.
  - intros names Hn. by apply renameSyscall_Some.
  - intros line Hl. destruct (rename !! call) as [names|] eqn:Hn.
    + rewrite (renameSyscall_Some desc rename names Hn) in Hl.
      apply list_elem_of_fmap in Hl as (name & -> & Hin).
      apply list_elem_of_filter in Hin as [Hp Hin].
      apply isProhibited_false in Hp as [H1 H2].
      by exists names, name.
    + unfold renameSyscall in Hl. fold call in Hl. rewrite Hn in Hl.
      by apply elem_of_nil in Hl.
Qed.

Lemma renameSyscall_lines_witness :
  renameSyscall "setuid16$auto(uid int32)"
    {[ "setuid16" := ["reboot"; "setuid"] ]}
  = ["setuid$auto(uid int32)"].
Proof.
  pose proof (renameSyscall_lines "setuid16$auto(uid int32)"
    {[ "setuid16" := ["reboot"; "setuid"] ]}) as (_ & _ & H & _).
  apply (H ["reboot"; "setuid"]). reflexivity.
Defined.

(** [renameSyscall] does not return a line twice when the record of the
    call does not hold a name twice. *)
Theorem renameSyscall_NoDup desc (rename : gmap string (list string)) names :
  rename !! SplitHead desc "$" = Some names → NoDup names →
  NoDup (renameSyscall desc rename).
Proof.
  intros Hn Hnd. rewrite (renameSyscall_Some desc rename names Hn).
  apply NoDup_fmap_2; [|by apply NoDup_filter].
  intros n1 n2. apply append_inj_l.
Qed.

Lemma renameSyscall_NoDup_witness :
  NoDup (renameSyscall "read$auto(fd fd)" {[ "read" := ["read"; "pread"] ]}).
Proof.
  apply (renameSyscall_NoDup _ _ ["read"; "pread"]); [reflexivity |].
  apply NoDup_cons. split; [|apply NoDup_singleton].
  intros H. apply list_elem_of_singleton in H. discriminate H.
Defined.

End rename_facts.

(** ** Order of strings, sorting and compaction *)

Section order_facts.
Import gostrings.
Implicit Types (s t n b : string) (c : ascii).

Lemma ascii_compare_refl c : Ascii.compare c c = Eq.
Proof.
  pose proof (Ascii.compare_antisym c c) as H.
  destruct (Ascii.compare c c); simpl in H; congruence.
Qed.

Lemma le_nil_l s : le EmptyString s.
Proof. by destruct s. Qed.

Lemma le_nil_r s : le s EmptyString → s = EmptyString.
Proof. by destruct s. Qed.

Lemma le_cons c1 s1 c2 s2 :
  le (String c1 s1) (String c2 s2) ↔
  Ascii.compare c1 c2 = Lt ∨ (c1 = c2 ∧ le s1 s2).
Proof.
  unfold le, String.leb. cbn [String.compare].
  destruct (Ascii.compare c1 c2) eqn:E.
  - apply Ascii.compare_eq_iff in E as ->. split; [by right |].
    intros [H|[_ H]]; [discriminate H | done].
  - split; [by left | done].
  - split; [done |]. intros [H|[-> _]]; [discriminate H |].
    rewrite ascii_compare_refl in E. discriminate E.
Qed.

(** A string between two strings that start with [n] starts with [n]. *)
Lemma le_between n : ∀ ta tc b,
  le (n +:+ ta) b → le b (n +:+ tc) →
  ∃ tb, b = n +:+ tb ∧ le ta tb ∧ le tb tc.
Proof.
  induction n as [|ch n IH]; intros ta tc b Hab Hbc.
  - exists b. by repeat split.
  - change (le (String ch (n +:+ ta)) b) in Hab.
    change (le b (String ch (n +:+ tc))) in Hbc.
    destruct b as [|cb b]; [by apply le_nil_r in Hab |].
    apply le_cons in Hab. apply le_cons in Hbc.
    assert (Heq : ch = cb).
    { destruct Hab as [Hab|[Hab _]]; [|done].
      destruct Hbc as [Hbc|[Hbc _]]; [|done].
      rewrite Ascii.compare_antisym, Hab in Hbc. discriminate Hbc. }
    subst cb. rewrite ascii_compare_refl in Hab, Hbc.
    destruct Hab as [Hab|[_ Hab]]; [discriminate Hab |].
    destruct Hbc as [Hbc|[_ Hbc]]; [discriminate Hbc |].
    destruct (IH ta tc b Hab Hbc) as (tb & -> & H1 & H2).
    by exists tb.
Qed.

Lemma no_byte_below_append c s t :
  declextract.no_byte_below c (s +:+ t)
  = declextract.no_byte_below c s && declextract.no_byte_below c t.
Proof.
  induction s as [|a s IH]; [done |].
  change (String a s +:+ t) with (String a (s +:+ t)).
  cbn [declextract.no_byte_below]. by rewrite IH, andb_assoc.
Qed.

Lemma SplitHead_pass n c a r :
  SplitHead n c = n → a ≠ c →
  SplitHead (n +:+ String a r) c = n +:+ String a (SplitHead r c).
Proof.
  intros Hn Ha. induction n as [|x n IH].
  - change (SplitHead (String a r) c = String a (SplitHead r c)).
    cbn [SplitHead]. apply Ascii.eqb_neq in Ha. by rewrite Ha.
  - change (SplitHead (String x (n +:+ String a r)) c
            = String x (n +:+ String a (SplitHead r c))).
    cbn [SplitHead] in Hn |- *.
    destruct (Ascii.eqb x c); [discriminate Hn |].
    injection Hn as Hn. by rewrite IH.
Qed.

(** Lines for the same call lie side by side in the sorted order, as long
    as no call name has a byte below ["$"]. *)
Lemma same_call_between (a b z : string) :
  le a b → le b z →
  SplitHead a "$" = SplitHead z "$" →
  declextract.plain_call b = true →
  SplitHead b "$" = SplitHead a "$".
Proof.
  intros Hab Hbc Hkey Hplain.
  set (n := SplitHead a "$") in *.
  assert (Hn : SplitHead n "$" = n) by apply SplitHead_idemp.
  rewrite (SplitHead_append a "$") in Hab. fold n in Hab.
  rewrite (SplitHead_append z "$") in Hbc. rewrite <- Hkey in Hbc.
  destruct (le_between n _ _ b Hab Hbc) as (tb & -> & _ & Htc).
  destruct tb as [|x r].
  - assert (E : n +:+ EmptyString = n)
      by (clear; induction n as [|y n IH]; [done |];
          change (String y (n +:+ "") = String y n); by rewrite IH).
    by rewrite E.
  - pose proof (SplitHead_rest z "$") as Hrest. rewrite <- Hkey in Hrest.
    destruct Hrest as [Hr|(r' & Hr)]; rewrite Hr in Htc.
    + by apply le_nil_r in Htc.
    + apply le_cons in Htc as [Hlt|[-> _]].
      * exfalso. unfold declextract.plain_call in Hplain.
        assert (Hx : x ≠ "$"%char).
        { intros ->. rewrite ascii_compare_refl in Hlt. discriminate Hlt. }
        rewrite (SplitHead_pass n "$" x r Hn Hx) in Hplain.
        rewrite no_byte_below_append in Hplain.
        apply andb_true_iff in Hplain as [_ Hplain].
        cbn [declextract.no_byte_below] in Hplain.
        apply andb_true_iff in Hplain as [Hplain _].
        unfold Ascii.ltb in Hplain. rewrite Hlt in Hplain.
        discriminate Hplain.
      * by apply SplitHead_stop.
Qed.

End order_facts.

Section compact_facts.
Import gostrings goslices.
Variable key : string → string.
Variable eq : string → string → bool.
Hypothesis eq_key : ∀ a b, eq a b = true ↔ key a = key b.

Lemma compact_loop_sublist (l : list string) : ∀ prev,
  compact_loop eq prev l `sublist_of` l.
Proof.
  induction l as [|x l IH]; intros prev; simpl; [constructor |].
  destruct (eq x prev); by constructor.
Qed.

Lemma CompactFunc_sublist (l : list string) : CompactFunc l eq `sublist_of` l.
Proof.
  destruct l as [|x l]; simpl; [constructor |].
  apply sublist_skip, compact_loop_sublist.
Qed.

(** No key is lost: what is dropped has the key of something kept. *)
Lemma compact_loop_covers (l : list string) : ∀ prev x,
  x ∈ l →
  key x = key prev ∨ ∃ y, y ∈ compact_loop eq prev l ∧ key y = key x.
Proof.
  induction l as [|a l IH]; intros prev x Hx; [by apply elem_of_nil in Hx |].
  simpl. apply elem_of_cons in Hx as [->|Hx].
  - destruct (eq a prev) eqn:E.
    + left. by apply eq_key.
    + right. exists a. split; [by left | done].
  - destruct (IH a x Hx) as [Hk|(y & Hy & Hk)].
    + destruct (eq a prev) eqn:E.
      * left. rewrite Hk. by apply eq_key.
      * right. exists a. split; [by left | done].
    + right. exists y. split; [|done].
      destruct (eq a prev); [done | by right].
Qed.

Lemma CompactFunc_covers (l : list string) x :
  x ∈ l → ∃ y, y ∈ CompactFunc l eq ∧ key y = key x.
Proof.
  destruct l as [|a l]; intros Hx; [by apply elem_of_nil in Hx |].
  simpl. apply elem_of_cons in Hx as [->|Hx].
  - exists a. split; [by left | done].
  - destruct (compact_loop_covers l a x Hx) as [Hk|(y & Hy & Hk)].
    + exists a. split; [by left | done].
    + exists y. split; [by right | done].
Qed.

Variable P : string → Prop.
Hypothesis key_between :
  ∀ a b c, le a b → le b c → key a = key c → P b → key b = key a.

(** On a sorted list whose keys lie side by side, every key is kept
    once. *)
Lemma compact_loop_NoDup (l : list string) : ∀ prev,
  StronglySorted le (prev :: l) → Forall P l →
  ¬ (key prev ∈ key <$> compact_loop eq prev l) ∧
  NoDup (key <$> compact_loop eq prev l).
Proof.
  induction l as [|x l IH]; intros prev Hs HP; simpl.
  - split; [apply not_elem_of_nil | constructor].
  - apply StronglySorted_cons in Hs as [Hall Hs].
    apply Forall_cons in Hall as [Hpx Hall].
    apply Forall_cons in HP as [HPx HP].
    destruct (IH x Hs HP) as [Hnot Hnd].
    destruct (eq x prev) eqn:E.
    + apply eq_key in E. rewrite <- E. done.
    + assert (Hne : key x ≠ key prev).
      { intros Hk. apply eq_key in Hk. congruence. }
      split.
      * rewrite fmap_cons. intros Hin.
        apply elem_of_cons in Hin as [Hk|Hin]; [congruence |].
        apply list_elem_of_fmap in Hin as (y & Hk & Hy).
        assert (Hyl : y ∈ l).
        { eapply sublist_subseteq; [apply compact_loop_sublist | done]. }
        apply StronglySorted_cons in Hs as [Hxall _].
        rewrite Forall_forall in Hxall.
        apply Hne. apply (key_between prev x y); auto.
      * rewrite fmap_cons. by apply NoDup_cons.
Qed.

Lemma CompactFunc_NoDup (l : list string) :
  StronglySorted le l → Forall P l → NoDup (key <$> CompactFunc l eq).
Proof.
  destruct l as [|x l]; intros Hs HP; simpl; [constructor |].
  apply Forall_cons in HP as [_ HP].
  destruct (compact_loop_NoDup l x Hs HP) as [Hnot Hnd].
  by apply NoDup_cons.
Qed.

End compact_facts.

Section sorted_facts.
Import gostrings goslices.

Lemma StronglySorted_sublist (l1 l2 : list string) :
  l1 `sublist_of` l2 → StronglySorted le l2 → StronglySorted le l1.
Proof.
  induction 1 as [|x l1 l2 Hsub IH|x l1 l2 Hsub IH]; intros Hs.
  - constructor.
  - apply StronglySorted_cons in Hs as [Hall Hs].
    apply StronglySorted_cons. split; [|by apply IH].
    rewrite Forall_forall in Hall |- *. intros y Hy. apply Hall.
    by eapply sublist_subseteq.
  - apply StronglySorted_cons in Hs as [_ Hs]. by apply IH.
Qed.

(** Sorting does not see the order of its input. *)
Lemma Sort_Permutation (l1 l2 : list string) :
  l1 ≡ₚ l2 → Sort l1 = Sort l2.
Proof.
  intros Hp.
  destruct (Sort_sorted l1) as [Hs1 Hp1].
  destruct (Sort_sorted l2) as [Hs2 Hp2].
  apply (@StronglySorted_unique _ le le_antisym); [done | done |].
  by rewrite Hp1, Hp2.
Qed.

Lemma same_call_key a b :
  declextract.same_call a b = true ↔ SplitHead a "$" = SplitHead b "$".
Proof. unfold declextract.same_call. apply String.eqb_eq. Qed.

End sorted_facts.

(** ** writeOutput *)

Section output_facts.
Import gostrings goslices declextract.

(** The lines [writeOutput] writes are lines it was given, in ascending
    order, and no call is lost: every line it was given has its call (the
    part before the first ["$"]) on one of the lines written. *)
Theorem output_lines_kept (allOut : list string) :
  let out := output_lines allOut in
  StronglySorted le out ∧
  (∀ line, line ∈ out → line ∈ allOut) ∧
  (∀ line, line ∈ allOut →
     ∃ kept, kept ∈ out ∧ SplitHead kept "$" = SplitHead line "$").
Proof.
  intros out. destruct (Sort_sorted allOut) as [Hs Hp].
  assert (Hsub : out `sublist_of` Sort allOut)
    by apply CompactFunc_sublist.
  split; [|split].
  - by apply (StronglySorted_sublist out (Sort allOut)).
  - intros line Hl. rewrite <- Hp. by eapply sublist_subseteq.
  - intros line Hl. rewrite <- Hp in Hl.
    apply (CompactFunc_covers (fun s => SplitHead s "$") same_call
             same_call_key (Sort allOut) line Hl).
Qed.

Lemma output_lines_kept_witness :
  ∃ kept, kept ∈ output_lines ["read$b"; "open$a"; "read$a"] ∧
          SplitHead kept "$" = SplitHead "read$b" "$".
Proof.
  pose proof (output_lines_kept ["read$b"; "open$a"; "read$a"]) as (_ & _ & H).
  apply H. by left.
Defined.

(** One line per call: when no call name among the lines has a byte below
    ["$"], no two lines written are for the same call. *)
Theorem output_lines_one_per_call (allOut : list string) :
  (∀ line, line ∈ allOut → plain_call line = true) →
  NoDup ((fun line => SplitHead line "$") <$> output_lines allOut).
Proof.
  intros Hplain. destruct (Sort_sorted allOut) as [Hs Hp].
  apply (CompactFunc_NoDup (fun s => SplitHead s "$") same_call
           same_call_key (fun b => plain_call b = true)).
  - intros a b c Hab Hbc Hk Hb. by apply (same_call_between a b c).
  - done.
  - apply Forall_forall. intros line Hl. apply Hplain. by rewrite <- Hp.
Qed.

Lemma output_lines_one_per_call_witness :
  NoDup ((fun line => SplitHead line "$")
         <$> output_lines ["read$b"; "open$a"; "read$a"]).
Proof.
  apply output_lines_one_per_call. intros line Hl.
  repeat (apply elem_of_cons in Hl as [->|Hl]; [reflexivity |]).
  by apply elem_of_nil in Hl.
Defined.

(** What is written does not depend on the order in which the lines were
    collected. *)
Theorem writeOutput_order (allOut allOut' : list string) :
  allOut ≡ₚ allOut' → writeOutput allOut = writeOutput allOut'.
Proof.
  intros Hp. unfold writeOutput, output_lines.
  by rewrite (Sort_Permutation allOut allOut' Hp).
Qed.

Lemma writeOutput_order_witness :
  writeOutput ["b$1"; "a$2"] = writeOutput ["a$2"; "b$1"].
Proof. apply writeOutput_order. apply Permutation_swap. Defined.

End output_facts.

(** ** readSyscallNames *)

Section names_facts.
Import gostrings goslices declextract.

(** What holds of every record while the lines are scanned: it is not
    empty, and each name in it is the third field of a line scanned and
    does not start with [unused]. *)
Lemma scan_fields_records (lines : list (list string)) :
  ∀ key names,
    foldl scan_fields ∅ lines !! key = Some names →
    names ≠ [] ∧
    ∀ name, name ∈ names →
      HasPrefix name "unused" = false ∧
      ∃ fields, fields ∈ lines ∧ fields !! 2%nat = Some name.
Proof.
  induction lines as [|fields lines IH] using rev_ind; intros key names.
  - simpl. by rewrite lookup_empty.
  - rewrite foldl_app. cbn [foldl].
    set (m := foldl scan_fields ∅ lines) in *.
    assert (Hold : m !! key = Some names →
              names ≠ [] ∧
              ∀ name, name ∈ names →
                HasPrefix name "unused" = false ∧
                ∃ fs, fs ∈ lines ++ [fields] ∧ fs !! 2%nat = Some name).
    { intros Hm. destruct (IH key names Hm) as [Hne Hall].
      split; [done |]. intros name Hn.
      destruct (Hall name Hn) as (Hu & fs & Hfs & H2).
      split; [done |]. exists fs. split; [|done].
      apply elem_of_app. by left. }
    destruct fields as [|f0 [|f1 [|f2 [|f3 rest]]]]; try exact Hold.
    cbn [scan_fields].
    destruct (String.eqb f0 "#" || HasPrefix f2 "unused" || String.eqb f3 "-"
              || HasPrefix f3 "compat" || String.eqb f3 "sys_ni_syscall")
      eqn:Hskip; [exact Hold |].
    repeat (apply orb_false_iff in Hskip as [Hskip ?]).
    destruct (decide (TrimPrefix f3 "sys_" = key)) as [<-|Hne].
    + rewrite lookup_insert_eq. intros [= <-].
      split; [by destruct (default [] _) |].
      intros name Hn. apply elem_of_app in Hn as [Hn|Hn].
      * destruct (m !! TrimPrefix f3 "sys_") as [old|] eqn:Hm;
          [|by apply elem_of_nil in Hn].
        simpl in Hn. destruct (IH _ old Hm) as [_ Hall].
        destruct (Hall name Hn) as (Hu & fs & Hfs & Hthird).
        split; [done |]. exists fs. split; [|done].
        apply elem_of_app. by left.
      * apply list_elem_of_singleton in Hn. subst name. split; [done |].
        exists (f0 :: f1 :: f2 :: f3 :: rest). split; [|done].
        apply elem_of_app. right. by apply list_elem_of_singleton.
    + rewrite lookup_insert_ne by done. exact Hold.
Qed.

Lemma Compact_Sort_list (names : list string) :
  StronglySorted le (Compact (Sort names)) ∧
  NoDup (Compact (Sort names)) ∧
  (∀ name, name ∈ Compact (Sort names) ↔ name ∈ names).
Proof.
  destruct (Sort_sorted names) as [Hs Hp].
  assert (Hsub : Compact (Sort names) `sublist_of` Sort names)
    by apply CompactFunc_sublist.
  split; [by apply (StronglySorted_sublist _ (Sort names)) |]. split.
  - rewrite <- (list_fmap_id (Compact (Sort names))).
    apply (CompactFunc_NoDup id String.eqb String.eqb_eq (fun _ => True)).
    + intros a b c Hab Hbc Hk _. unfold id in *. subst c.
      by apply le_antisym.
    + done.
    + by apply Forall_forall.
  - intros name. split.
    + intros Hn. apply (sublist_subseteq _ _ Hsub) in Hn.
      by rewrite Hp in Hn.
    + intros Hn. assert (Hn' : name ∈ Sort names) by (by rewrite Hp).
      destruct (CompactFunc_covers id String.eqb String.eqb_eq
                  (Sort names) name Hn') as (y & Hy & Hk).
      unfold id in Hk. by subst y.
Qed.

Lemma readSyscallNames_records (lines : list (list string)) key names :
  readSyscallNames lines !! key = Some names →
  names ≠ [] ∧ StronglySorted le names ∧ NoDup names ∧
  ∀ name, name ∈ names →
    HasPrefix name "unused" = false ∧
    ∃ fields, fields ∈ lines ∧ fields !! 2%nat = Some name.
Proof.
  unfold readSyscallNames, normalize. rewrite lookup_fmap.
  destruct (foldl scan_fields ∅ lines !! key) as [raw|] eqn:Hraw; [|done].
  simpl. intros [= <-].
  destruct (scan_fields_records lines key raw Hraw) as [Hne Hall].
  destruct (Compact_Sort_list raw) as (Hs & Hnd & Hin).
  split; [|split; [done |split; [done |]]].
  - destruct raw as [|x raw]; [done |].
    assert (Hx : x ∈ Compact (Sort (x :: raw))) by (apply Hin; by left).
    intros E. rewrite E in Hx. by apply elem_of_nil in Hx.
  - intros name Hn. apply Hall. by apply Hin.
Qed.

(** The table [readSyscallNames] returns: every record is a non-empty list
    of names in ascending order without a name twice; each name is the
    third field of one of the lines read and does not start with
    [unused]. *)
Theorem readSyscallNames_table (lines : list (list string)) key names :
  readSyscallNames lines !! key = Some names →
  names ≠ [] ∧ StronglySorted le names ∧ NoDup names ∧
  ∀ name, name ∈ names →
    HasPrefix name "unused" = false ∧
    ∃ fields, fields ∈ lines ∧ fields !! 2%nat = Some name.
Proof. apply readSyscallNames_records. Qed.

Lemma readSyscallNames_table_witness :
  NoDup ["setuid"; "setuid16b"].
Proof.
  destruct (readSyscallNames_table
    [ ["23"; "common"; "setuid"; "sys_setuid16"];
      ["24"; "common"; "setuid16b"; "sys_setuid16"];
      ["23"; "i386"; "setuid"; "sys_setuid16"];
      ["5"; "x"; "unused1"; "sys_setuid16"] ]
    "setuid16" ["setuid"; "setuid16b"]) as (_ & _ & H & _);
    [by vm_compute | exact H].
Defined.

(** A line of a .tbl file leaves the table as it is when it has fewer than
    four fields, is a comment, is marked unused, has no entry point, or
    has a compat or the not-implemented entry point; any other line adds
    its third field under its entry point without the [sys_] prefix. *)
Lemma scan_fields_skips (rename : gmap string (list string))
  (f0 f1 f2 f3 : string) (rest : list string) :
  (∀ fields, (length fields < 4)%nat → scan_fields rename fields = rename) ∧
  (f0 = "#" ∨ HasPrefix f2 "unused" = true ∨ f3 = "-" ∨
   HasPrefix f3 "compat" = true ∨ f3 = "sys_ni_syscall" →
   scan_fields rename (f0 :: f1 :: f2 :: f3 :: rest) = rename) ∧
  (f0 ≠ "#" → HasPrefix f2 "unused" = false → f3 ≠ "-" →
   HasPrefix f3 "compat" = false → f3 ≠ "sys_ni_syscall" →
   scan_fields rename (f0 :: f1 :: f2 :: f3 :: rest)
   = <[TrimPrefix f3 "sys_" :=
         default [] (rename !! TrimPrefix f3 "sys_") ++ [f2]]> rename).
Proof.
  split; [|split].
  - intros fields Hlen.
    destruct fields as [|a [|b [|c [|d r]]]]; try done. simpl in Hlen. lia.
  - intros Hskip. cbn [scan_fields].
    assert (E : String.eqb f0 "#" || HasPrefix f2 "unused"
                || String.eqb f3 "-" || HasPrefix f3 "compat"
                || String.eqb f3 "sys_ni_syscall" = true).
    { rewrite !orb_true_iff, !String.eqb_eq. tauto. }
    by rewrite E.
  - intros H0 H2 H3 H3' H3''. cbn [scan_fields].
    apply String.eqb_neq in H0, H3, H3''.
    by rewrite H0, H2, H3, H3', H3''.
Qed.

(** With the table of [readSyscallNames], [renameSyscall] never returns a
    line twice. *)
Theorem renameSyscall_table_NoDup (lines : list (list string)) (desc : string) :
  NoDup (renameSyscall desc (readSyscallNames lines)).
Proof.
  destruct (readSyscallNames lines !! SplitHead desc "$") as [names|] eqn:Hn.
  - destruct (readSyscallNames_records lines _ names Hn) as (_ & _ & Hnd & _).
    rewrite (renameSyscall_Some desc _ names Hn).
    apply NoDup_fmap_2; [|by apply NoDup_filter].
    intros n1 n2. apply append_inj_l.
  - unfold renameSyscall. rewrite Hn. constructor.
Qed.

End names_facts.
